(** * NeighborListGPUTree: LBVH neighbour search kernels

    A shallow embedding of the device code of [NeighborListGPUTree.cu]
    (Morton encoding, Karras hierarchy generation, bounding-box bubbling and
    stackless traversal), followed by the properties established about it.

    Conventions.
    - [unsigned int] is a [Z] in [0, 2^32); every arithmetic operation of the
      source is followed by its wrap-around ([wrap32]).
    - [int] is a [Z] in [-2^31, 2^31) ([to_int32] is the conversion from the
      unsigned representation).
    - a device pointer is a total map from offsets to values ([mem]); the
      kernels never check bounds, and neither does the model.
    - [Scalar] is modelled by exact rationals ([Q]): comparisons, sums and
      products are the exact ones, rounding is outside the model.  The
      [w] component of a [Scalar4], which the source reinterprets with
      [__scalar_as_int], carries the integer directly. *)

From Stdlib Require Import ZArith List Bool Lia QArith Relations.
Import ListNotations.
Open Scope Z_scope.

(* ================================================================== *)
(** * Part I: the embedding                                            *)
(* ================================================================== *)

(** ** Machine integers *)

Definition wrap32 (z : Z) : Z := z mod 2 ^ 32.

Definition to_int32 (z : Z) : Z :=
  let u := wrap32 z in if u <? 2 ^ 31 then u else u - 2 ^ 32.

Definition is_u32 (z : Z) : Prop := 0 <= z < 2 ^ 32.

(** A device array behind a pointer. *)
Definition mem (A : Type) : Type := Z -> A.

Definition upd {A : Type} (m : mem A) (i : Z) (v : A) : mem A :=
  fun k => if k =? i then v else m k.

Definition of_list {A : Type} (d : A) (l : list A) : mem A :=
  fun k =>
    if (k <? 0) || (Z.of_nat (length l) <=? k) then d else nth (Z.to_nat k) l d.

(** [__clz]: number of leading zero bits of a 32-bit word (32 for 0). *)
Definition clz (x : Z) : Z :=
  if x =? 0 then 32 else 31 - Z.log2 x.

(** ** expandBits *)

Definition expandBits (v : Z) : Z :=
  let v := Z.land (wrap32 (v * 0x00010001)) 0xFF0000FF in
  let v := Z.land (wrap32 (v * 0x00000101)) 0x0F00F00F in
  let v := Z.land (wrap32 (v * 0x00000011)) 0xC30C30C3 in
  let v := Z.land (wrap32 (v * 0x00000005)) 0x49249249 in
  v.

(** ** delta *)

Definition delta (d_morton_codes : mem Z) (i j : Z) (min_idx max_idx : Z) : Z :=
  if (wrap32 max_idx <? j) || (j <? wrap32 min_idx) then -1
  else
    let first_code := d_morton_codes i in
    let last_code := d_morton_codes j in
    if first_code =? last_code then clz (Z.lxor i j)
    else clz (Z.lxor first_code last_code).

(** ** determineRange

    The two loops of the source are run with a fuel; [None] stands for a
    loop that did not leave within the fuel.  Every iteration doubles
    [lmax] or halves [step], so on 32-bit data the fuel below is never
    the reason the search for the split stops. *)

Definition loop_fuel : nat := 40%nat.

Fixpoint lmax_loop (fuel : nat) (d_morton_codes : mem Z)
    (min_idx max_idx idx d min_prefix lmax : Z) : option Z :=
  match fuel with
  | O => None
  | S n =>
      if min_prefix <?
         delta d_morton_codes (wrap32 idx) (wrap32 (idx + d * lmax)) min_idx max_idx
      then lmax_loop n d_morton_codes min_idx max_idx idx d min_prefix
             (to_int32 (Z.shiftl lmax 1))
      else Some lmax
  end.

Fixpoint len_loop (fuel : nat) (d_morton_codes : mem Z)
    (min_idx max_idx idx d min_prefix len step : Z) : option Z :=
  match fuel with
  | O => None
  | S n =>
      let step := Z.shiftr step 1 in
      let new_len := wrap32 (len + step) in
      let len :=
        if min_prefix <?
           delta d_morton_codes (wrap32 idx) (wrap32 (idx + d * new_len)) min_idx max_idx
        then new_len else len in
      if 1 <? step
      then len_loop n d_morton_codes min_idx max_idx idx d min_prefix len step
      else Some len
  end.

Definition determineRange (d_morton_codes : mem Z) (min_idx max_idx idx : Z)
  : option (Z * Z) :=
  let forward_prefix :=
    delta d_morton_codes (wrap32 idx) (wrap32 (idx + 1)) min_idx max_idx in
  let backward_prefix :=
    delta d_morton_codes (wrap32 idx) (wrap32 (idx - 1)) min_idx max_idx in
  let d := if 0 <? forward_prefix - backward_prefix then 1 else -1 in
  let min_prefix :=
    delta d_morton_codes (wrap32 idx) (wrap32 (idx - d)) min_idx max_idx in
  match lmax_loop loop_fuel d_morton_codes min_idx max_idx idx d min_prefix 2 with
  | None => None
  | Some lmax =>
      match len_loop loop_fuel d_morton_codes min_idx max_idx idx d min_prefix
              0 (wrap32 lmax) with
      | None => None
      | Some len =>
          if 0 <? d then Some (wrap32 idx, wrap32 (idx + len))
          else Some (wrap32 (idx - len), wrap32 idx)
      end
  end.

(** ** findSplit *)

Fixpoint findSplit_loop (fuel : nat) (d_morton_codes : mem Z)
    (first_code common_prefix last split step : Z) : option Z :=
  match fuel with
  | O => None
  | S n =>
      let step := Z.shiftr (wrap32 (step + 1)) 1 in
      let new_split := wrap32 (split + step) in
      let split :=
        if new_split <? last then
          let split_code := d_morton_codes new_split in
          let split_prefix := clz (Z.lxor first_code split_code) in
          if common_prefix <? split_prefix then new_split else split
        else split in
      if 1 <? step
      then findSplit_loop n d_morton_codes first_code common_prefix last split step
      else Some split
  end.

Definition findSplit (d_morton_codes : mem Z) (first last : Z) : option Z :=
  let first_code := d_morton_codes first in
  let last_code := d_morton_codes last in
  if first_code =? last_code then Some (Z.shiftr (wrap32 (first + last)) 1)
  else
    let common_prefix := clz (Z.lxor first_code last_code) in
    findSplit_loop loop_fuel d_morton_codes first_code common_prefix last
      first (wrap32 (last - first)).

(** ** gpu_nlist_gen_hierarchy_kernel

    [PARTICLES_PER_LEAF] comes from a header that is not part of the
    sources at hand; it is the parameter [L] below. *)

(** The expression added to [max_idx] for one type:
    [(d_num_per_type[t] + PARTICLES_PER_LEAF - 1)/PARTICLES_PER_LEAF - 1]. *)
Definition internal_node_count (L count : Z) : Z :=
  wrap32 (wrap32 (wrap32 (count + L) - 1) / L - 1).

(** The loop over the types: returns [(cur_type, origin, end, node_idx)]
    as they stand after the loop. *)
Fixpoint type_walk (remaining : nat) (d_num_per_type : mem Z) (L idx : Z)
    (cur_type max_idx : Z) : Z * Z * Z * Z :=
  match remaining with
  | O => (cur_type, 0, 0, idx)
  | S r =>
      let min_idx := max_idx in
      let max_idx :=
        wrap32 (max_idx + internal_node_count L (d_num_per_type cur_type)) in
      if idx <? max_idx then
        (cur_type, wrap32 (min_idx + cur_type), wrap32 (max_idx + cur_type),
         wrap32 (idx + cur_type))
      else type_walk r d_num_per_type L idx (cur_type + 1) max_idx
  end.

(** The stores of one thread, in program order. *)
Inductive hier_write : Type :=
| W_leaf_parents (slot value : Z)
| W_node_parents (slot value : Z)
| W_node_children (slot x y : Z).

Definition gen_hierarchy_kernel (d_morton_codes d_num_per_type : mem Z)
    (L ntypes nleafs : Z) (idx : Z) : option (list hier_write) :=
  if wrap32 (nleafs - ntypes) <=? idx then Some []
  else
    let '(cur_type, origin, end_, node_idx) :=
      type_walk (Z.to_nat ntypes) d_num_per_type L idx 0 0 in
    match determineRange d_morton_codes (to_int32 origin) (to_int32 end_)
            (to_int32 node_idx) with
    | None => None
    | Some (first, last) =>
        match findSplit d_morton_codes first last with
        | None => None
        | Some split =>
            let '(children_x, wx) :=
              if split =? first then
                (Z.lor (wrap32 (Z.shiftl split 1)) 1, W_leaf_parents split idx)
              else
                (wrap32 (Z.shiftl (wrap32 (split - cur_type)) 1),
                 W_node_parents (wrap32 (split - cur_type)) idx) in
            let '(children_y, wy) :=
              if wrap32 (split + 1) =? last then
                (Z.lor (wrap32 (Z.shiftl (wrap32 (split + 1)) 1)) 1,
                 W_leaf_parents (wrap32 (split + 1)) idx)
              else
                (wrap32 (Z.shiftl (wrap32 (wrap32 (split - cur_type) + 1)) 1),
                 W_node_parents (wrap32 (wrap32 (split - cur_type) + 1)) idx) in
            let wroot :=
              if node_idx =? origin then [W_node_parents idx idx] else [] in
            Some ([wx; wy] ++ wroot ++ [W_node_children idx children_x children_y])
        end
    end.

(** The launch: the grid has [(nleafs-ntypes)/block_size + 1] blocks of
    [block_size] threads; each thread is paired with its stores. *)
Definition grid_threads (work block_size : Z) : list Z :=
  map Z.of_nat (seq 0 (Z.to_nat ((work / block_size + 1) * block_size))).

Definition gpu_nlist_gen_hierarchy (d_morton_codes d_num_per_type : mem Z)
    (L ntypes nleafs block_size : Z) : list (Z * option (list hier_write)) :=
  map (fun idx =>
         (idx, gen_hierarchy_kernel d_morton_codes d_num_per_type L ntypes nleafs idx))
      (grid_threads (wrap32 (nleafs - ntypes)) block_size).

(** The threads of a launch that store the parent of leaf [slot], and
    those that store the parent of internal node [slot]. *)
Definition stores_leaf_parent (slot : Z) (w : hier_write) : bool :=
  match w with W_leaf_parents s _ => s =? slot | _ => false end.

Definition stores_node_parent (slot : Z) (w : hier_write) : bool :=
  match w with W_node_parents s _ => s =? slot | _ => false end.

Definition writers (test : hier_write -> bool)
    (launch : list (Z * option (list hier_write))) : list Z :=
  flat_map (fun th =>
              match snd th with
              | Some ws => map (fun _ => fst th) (filter test ws)
              | None => []
              end) launch.

(** The three arrays after the launch, the stores applied thread by
    thread. *)
Record hierarchy : Type := mk_hierarchy
  { h_leaf_parents : mem Z;
    h_node_parents : mem Z;
    h_node_children : mem (Z * Z) }.

Definition apply_hier_write (h : hierarchy) (w : hier_write) : hierarchy :=
  match w with
  | W_leaf_parents s v =>
      mk_hierarchy (upd (h_leaf_parents h) s v) (h_node_parents h) (h_node_children h)
  | W_node_parents s v =>
      mk_hierarchy (h_leaf_parents h) (upd (h_node_parents h) s v) (h_node_children h)
  | W_node_children s x y =>
      mk_hierarchy (h_leaf_parents h) (h_node_parents h)
        (upd (h_node_children h) s (x, y))
  end.

Definition hierarchy_after (h0 : hierarchy)
    (launch : list (Z * option (list hier_write))) : hierarchy :=
  fold_left
    (fun h th => match snd th with
                 | Some ws => fold_left apply_hier_write ws h
                 | None => h
                 end)
    launch h0.

(** ** Scalars *)

Definition Scalar : Type := Q.

Record Scalar2 : Type := make_scalar2 { s2_x : Scalar; s2_y : Z }.
Record Scalar3 : Type := make_scalar3 { s3_x : Scalar; s3_y : Scalar; s3_z : Scalar }.
Record Scalar4 : Type :=
  make_scalar4 { s4_x : Scalar; s4_y : Scalar; s4_z : Scalar; s4_w : Z }.

Definition Qltb (a b : Q) : bool := negb (Qle_bool b a).
Definition Qleb (a b : Q) : bool := Qle_bool a b.

(** Conversion of a scalar to [unsigned int]: truncation towards zero. *)
Definition scalar_to_uint (q : Q) : Z := wrap32 (Z.quot (Qnum q) (Zpos (Qden q))).

Definition set_w (v : Scalar4) (w : Z) : Scalar4 :=
  make_scalar4 (s4_x v) (s4_y v) (s4_z v) w.
Definition set_x (v : Scalar4) (q : Scalar) : Scalar4 :=
  make_scalar4 q (s4_y v) (s4_z v) (s4_w v).
Definition set_y (v : Scalar4) (q : Scalar) : Scalar4 :=
  make_scalar4 (s4_x v) q (s4_z v) (s4_w v).
Definition set_z (v : Scalar4) (q : Scalar) : Scalar4 :=
  make_scalar4 (s4_x v) (s4_y v) q (s4_w v).

(** ** gpu_nlist_morton_codes_kernel

    [BoxDim] is not part of the sources at hand: [box.getPeriodic()] is the
    parameter [periodic] and [box.makeFraction(pos, ghost_width)] is the
    parameter [makeFraction].  The shared-memory copy [s_type_head] holds
    [d_type_head], which is read directly. *)

Definition MORTON_CODE_N_BINS : Z := 1024.

Inductive morton_write : Type :=
| W_morton_codes (slot value : Z)
| W_leaf_particles (slot value : Z).

(** The test of line 239 on one coordinate. *)
Definition out_of_cell (f : Scalar) : bool :=
  Qltb f 0 || Qleb (100001 # 100000) f.

(** The bin of one coordinate (lines 250 and 255). *)
Definition morton_bin (f : Scalar) (periodic : bool) : Z :=
  let ib := scalar_to_uint (f * inject_Z MORTON_CODE_N_BINS) in
  if (ib =? MORTON_CODE_N_BINS) && periodic then 0 else ib.

Definition morton_code (ib jb kb : Z) : Z :=
  let ii := expandBits ib in
  let jj := expandBits jb in
  let kk := expandBits kb in
  wrap32 (wrap32 (wrap32 (ii * 4) + wrap32 (jj * 2)) + kk).

Definition gpu_nlist_morton_codes_kernel
    (d_pos : mem Scalar4) (d_map_p_global_tree : mem Z) (N : Z)
    (d_type_head : mem Z) (periodic : bool * bool * bool)
    (makeFraction : Scalar3 -> Scalar3) (idx : Z) : list morton_write :=
  if N <=? idx then []
  else
    let postype := d_pos idx in
    let pos := make_scalar3 (s4_x postype) (s4_y postype) (s4_z postype) in
    let type := wrap32 (s4_w postype) in
    let '(periodic_x, periodic_y, periodic_z) := periodic in
    let f := makeFraction pos in
    if out_of_cell (s3_x f) || out_of_cell (s3_y f) || out_of_cell (s3_z f)
    then []
    else
      let ib := morton_bin (s3_x f) periodic_x in
      let jb := morton_bin (s3_y f) periodic_y in
      let kb := morton_bin (s3_z f) periodic_z in
      let leaf_idx := wrap32 (d_type_head type + d_map_p_global_tree idx) in
      [W_morton_codes leaf_idx (morton_code ib jb kb); W_leaf_particles leaf_idx idx].

(** ** gpu_nlist_morton_sort

    [thrust::sort_by_key] belongs to a library outside the sources: it is
    the parameter [sort_by_key], which acts on the (code, particle) pairs
    of the range it is given.  The two arrays the function sorts together
    are one list of pairs. *)

Fixpoint morton_sort_types (sort_by_key : list (Z * Z) -> list (Z * Z))
    (h_num_per_type : mem Z) (count : nat) (cur_type : Z) (pairs : list (Z * Z))
  : list (Z * Z) :=
  match count with
  | O => pairs
  | S c =>
      let n := Z.to_nat (h_num_per_type cur_type) in
      sort_by_key (firstn n pairs)
      ++ morton_sort_types sort_by_key h_num_per_type c (cur_type + 1) (skipn n pairs)
  end.

Definition gpu_nlist_morton_sort (sort_by_key : list (Z * Z) -> list (Z * Z))
    (h_num_per_type : mem Z) (ntypes : Z) (pairs : list (Z * Z)) : list (Z * Z) :=
  morton_sort_types sort_by_key h_num_per_type (Z.to_nat ntypes) 0 pairs.

(** Number of particles of the [t] types from type [c] on. *)
Fixpoint particles_from (h_num_per_type : mem Z) (c t : nat) : nat :=
  match t with
  | O => O
  | S k => (Z.to_nat (h_num_per_type (Z.of_nat c))
            + particles_from h_num_per_type (S c) k)%nat
  end.

(** The [n] entries of a list from position [off] on. *)
Definition segment {A : Type} (l : list A) (off n : nat) : list A :=
  firstn n (skipn off l).

(** A sort to run the sorter with: insertion by ascending code. *)
Fixpoint insert_by_key (x : Z * Z) (l : list (Z * Z)) : list (Z * Z) :=
  match l with
  | [] => [x]
  | y :: q => if fst x <=? fst y then x :: y :: q else y :: insert_by_key x q
  end.

Definition insertion_sort_by_key (l : list (Z * Z)) : list (Z * Z) :=
  fold_right insert_by_key [] l.

(** ** gpu_nlist_merge_particles_kernel: locating the leaf's particles

    Lines 482 to 500 of the kernel: the type of leaf [idx] and the range
    [start_idx, end_idx) of its particles. *)

Definition leaf_count (L count : Z) : Z :=
  wrap32 (wrap32 (wrap32 (count + L) - 1) / L).

(** The loop over the types: [(total_bins, leaf_type, max_idx)] after it;
    [leaf_type] is an [int], -1 while no type was found. *)
Fixpoint merge_type_walk (remaining : nat) (d_num_per_type d_type_head : mem Z)
    (L ntypes idx : Z) (cur_type total_bins leaf_type max_idx : Z) : Z * Z * Z :=
  match remaining with
  | O => (total_bins, leaf_type, max_idx)
  | S r =>
      if (leaf_type =? -1) && (cur_type <? ntypes) then
        let total_bins := wrap32 (total_bins + leaf_count L (d_num_per_type cur_type)) in
        if idx <? total_bins then
          let max_idx :=
            if wrap32 (cur_type + 1) <? ntypes
            then d_type_head (wrap32 (cur_type + 1)) else max_idx in
          merge_type_walk r d_num_per_type d_type_head L ntypes idx
            (cur_type + 1) total_bins cur_type max_idx
        else
          merge_type_walk r d_num_per_type d_type_head L ntypes idx
            (cur_type + 1) total_bins leaf_type max_idx
      else (total_bins, leaf_type, max_idx)
  end.

(** [None] when the thread returns at once ([idx >= nleafs]); otherwise
    [(leaf_type, start_idx, end_idx)]. *)
Definition merge_particles_segment (d_num_per_type d_leaf_offset d_type_head : mem Z)
    (L ntypes N nleafs idx : Z) : option (Z * Z * Z) :=
  if nleafs <=? idx then None
  else
    let '(_, leaf_type, max_idx) :=
      merge_type_walk (S (Z.to_nat ntypes)) d_num_per_type d_type_head L ntypes idx
        0 0 (-1) N in
    let start_idx := wrap32 (wrap32 (idx * L) - d_leaf_offset leaf_type) in
    let end_idx :=
      if L <? wrap32 (max_idx - start_idx) then wrap32 (start_idx + L) else max_idx in
    Some (leaf_type, start_idx, end_idx).

(** Number of leaves of the types before type [t]: the prefix sums the
    walks over the types follow. *)
Fixpoint leaves_before (L : Z) (d_num_per_type : mem Z) (t : nat) : Z :=
  match t with
  | O => 0
  | S k => leaves_before L d_num_per_type k + leaf_count L (d_num_per_type (Z.of_nat k))
  end.

(** A store of the thread of internal node [idx], of type [t] whose leaves
    are [[origin, end_]]: it names [idx] as the parent, a leaf slot is a
    leaf of the type, a node slot lies in [[origin - t, end_ - t]], and the
    slot of the type's root, [origin - t], is stored by the root alone. *)
Definition hier_store_confined (idx t origin end_ : Z) (w : hier_write) : Prop :=
  match w with
  | W_leaf_parents s v => v = idx /\ origin <= s <= end_
  | W_node_parents s v =>
      v = idx /\ origin - t <= s <= end_ - t /\ (s = origin - t -> idx = origin - t)
  | W_node_children s _ _ => s = idx
  end.

(** ** gpu_nlist_merge_particles_kernel: the box of a leaf

    Lines 503 to 531.  In the boxes the merger writes, the fourth component
    holds a number as a scalar ([0.0f] in [upper], the count of particles
    in [lower]); the model keeps that number. *)

Inductive merge_write : Type :=
| W_leaf_aabbs (slot : Z) (value : Scalar4)
| W_morton_codes_red (slot value : Z).

(** The body of the loop over the particles of the leaf. *)
Definition merge_point (lower upper cur_pos : Scalar4) : Scalar4 * Scalar4 :=
  let lower := if Qltb (s4_x cur_pos) (s4_x lower) then set_x lower (s4_x cur_pos)
               else lower in
  let upper := if Qltb (s4_x upper) (s4_x cur_pos) then set_x upper (s4_x cur_pos)
               else upper in
  let lower := if Qltb (s4_y cur_pos) (s4_y lower) then set_y lower (s4_y cur_pos)
               else lower in
  let upper := if Qltb (s4_y upper) (s4_y cur_pos) then set_y upper (s4_y cur_pos)
               else upper in
  let lower := if Qltb (s4_z cur_pos) (s4_z lower) then set_z lower (s4_z cur_pos)
               else lower in
  let upper := if Qltb (s4_z upper) (s4_z cur_pos) then set_z upper (s4_z cur_pos)
               else upper in
  (set_w lower (s4_w lower + 1), upper).

Fixpoint merge_leaf_loop (count : nat) (d_pos : mem Scalar4) (d_leaf_particles : mem Z)
    (cur_p : Z) (lower upper : Scalar4) : Scalar4 * Scalar4 :=
  match count with
  | O => (lower, upper)
  | S c =>
      let '(lower, upper) :=
        merge_point lower upper (d_pos (d_leaf_particles cur_p)) in
      merge_leaf_loop c d_pos d_leaf_particles (cur_p + 1) lower upper
  end.

(** The box and the count of the particles [start_idx, end_idx) of a
    leaf: [(lower, upper)] as stored. *)
Definition merge_leaf_box (d_pos : mem Scalar4) (d_leaf_particles : mem Z)
    (start_idx end_idx : Z) : Scalar4 * Scalar4 :=
  let upper := set_w (d_pos (d_leaf_particles start_idx)) 0 in
  let lower := set_w upper 1 in
  merge_leaf_loop (Z.to_nat (end_idx - wrap32 (start_idx + 1))) d_pos d_leaf_particles
    (wrap32 (start_idx + 1)) lower upper.

Definition gpu_nlist_merge_particles_kernel
    (d_morton_codes : mem Z) (d_pos : mem Scalar4)
    (d_num_per_type : mem Z) (ntypes : Z)
    (d_leaf_particles d_leaf_offset d_type_head : mem Z)
    (L N nleafs : Z) (idx : Z) : list merge_write :=
  match merge_particles_segment d_num_per_type d_leaf_offset d_type_head
          L ntypes N nleafs idx with
  | None => []
  | Some (_, start_idx, end_idx) =>
      let '(lower, upper) := merge_leaf_box d_pos d_leaf_particles start_idx end_idx in
      [W_leaf_aabbs (wrap32 (2 * idx)) upper;
       W_leaf_aabbs (wrap32 (wrap32 (2 * idx) + 1)) lower;
       W_morton_codes_red idx (d_morton_codes start_idx)]
  end.

(** The point [p] lies in the box [lower, upper]. *)
Definition box_contains (lower upper p : Scalar4) : Prop :=
  (s4_x lower <= s4_x p <= s4_x upper
   /\ s4_y lower <= s4_y p <= s4_y upper
   /\ s4_z lower <= s4_z p <= s4_z upper)%Q.

(** The box [lower, upper] lies in the box [lower', upper']. *)
Definition box_within (lower upper lower' upper' : Scalar4) : Prop :=
  (s4_x lower' <= s4_x lower /\ s4_x upper <= s4_x upper'
   /\ s4_y lower' <= s4_y lower /\ s4_y upper <= s4_y upper'
   /\ s4_z lower' <= s4_z lower /\ s4_z upper <= s4_z upper')%Q.

(** ** gpu_nlist_bubble_aabbs_kernel

    The memory the threads share, the registers of one thread, and one
    turn of the [do ... while] loop.  The [atomicAdd] and the work it
    guards are one indivisible step of the thread; the threads of the
    launch interleave such steps in any order. *)

Record bubble_shared : Type := mk_bubble_shared
  { d_node_locks : mem Z;
    d_tree_aabbs : mem Scalar4 }.

Record bubble_local : Type := mk_bubble_local
  { cur_child : Z;
    cur_parent : Z;
    cur_upper : Scalar4;
    cur_lower : Scalar4 }.

Record bubble_tree : Type := mk_bubble_tree
  { d_leaf_parents : mem Z;
    d_node_parents : mem Z;
    d_node_children : mem (Z * Z);
    bt_ntypes : Z;
    bt_nleafs : Z }.

(** The code before the loop; [None] for a thread past the leaves.  The
    kernel stores into the slots of internal nodes only, so the box of the
    leaf is the one the launch starts with, whenever the thread reads it. *)
Definition bubble_enter (t : bubble_tree) (sh : bubble_shared) (idx : Z)
  : option bubble_local :=
  if bt_nleafs t <=? idx then None
  else
    Some (mk_bubble_local
            (Z.lor (wrap32 (Z.shiftl idx 1)) 1)
            (d_leaf_parents t idx)
            (set_w (d_tree_aabbs sh (2 * idx)) 0)
            (set_w (d_tree_aabbs sh (2 * idx + 1)) 0)).

Definition merge_upper (cur sib : Scalar4) : Scalar4 :=
  let cur := if Qltb (s4_x cur) (s4_x sib) then set_x cur (s4_x sib) else cur in
  let cur := if Qltb (s4_y cur) (s4_y sib) then set_y cur (s4_y sib) else cur in
  let cur := if Qltb (s4_z cur) (s4_z sib) then set_z cur (s4_z sib) else cur in
  cur.

Definition merge_lower (cur sib : Scalar4) : Scalar4 :=
  let cur := if Qltb (s4_x sib) (s4_x cur) then set_x cur (s4_x sib) else cur in
  let cur := if Qltb (s4_y sib) (s4_y cur) then set_y cur (s4_y sib) else cur in
  let cur := if Qltb (s4_z sib) (s4_z cur) then set_z cur (s4_z sib) else cur in
  cur.

(** One turn of the loop: the new shared memory, and the registers the
    thread goes on with ([None] when the loop condition fails). *)
Definition bubble_turn (t : bubble_tree) (sh : bubble_shared) (l : bubble_local)
  : bubble_shared * option bubble_local :=
  let lock_key := d_node_locks sh (cur_parent l) in
  let locks := upd (d_node_locks sh) (cur_parent l) (wrap32 (lock_key + 1)) in
  if lock_key =? 1 then
    let '(left_child, right_child) := d_node_children t (cur_parent l) in
    let cur_sibling :=
      Z.shiftr (if left_child =? cur_child l then right_child else left_child) 1 in
    let skip_ahead :=
      ((left_child =? cur_child l) && negb (Z.testbit right_child 0))
      || ((right_child =? cur_child l) && negb (Z.testbit left_child 0)) in
    let cur_sibling :=
      wrap32 (cur_sibling + (if skip_ahead then 1 else 0) * bt_nleafs t) in
    let sib_upper := d_tree_aabbs sh (2 * cur_sibling) in
    let upper := merge_upper (cur_upper l) sib_upper in
    let aabbs := upd (d_tree_aabbs sh) (2 * (bt_nleafs t + cur_parent l)) upper in
    let sib_lower := aabbs (2 * cur_sibling + 1) in
    let lower := merge_lower (cur_lower l) sib_lower in
    let aabbs := upd aabbs (2 * (bt_nleafs t + cur_parent l) + 1) lower in
    let child := wrap32 (Z.shiftl (cur_parent l) 1) in
    let parent := d_node_parents t (Z.shiftr child 1) in
    (mk_bubble_shared locks aabbs,
     if negb (child =? parent) then Some (mk_bubble_local child parent upper lower)
     else None)
  else (mk_bubble_shared locks (d_tree_aabbs sh), None).

(** A launch in flight: the shared memory and, per thread, its registers
    ([None] once the thread has left the kernel). *)
Record bubble_config : Type := mk_bubble_config
  { bc_shared : bubble_shared;
    bc_threads : list (option bubble_local) }.

Fixpoint set_nth {A : Type} (n : nat) (l : list A) (v : A) : list A :=
  match l, n with
  | [], _ => []
  | _ :: q, O => v :: q
  | a :: q, S m => a :: set_nth m q v
  end.

(** Any thread still in the loop may take the next turn. *)
Inductive bubble_step (t : bubble_tree) : bubble_config -> bubble_config -> Prop :=
| bubble_step_thread : forall c (i : nat) l,
    nth_error (bc_threads c) i = Some (Some l) ->
    bubble_step t c
      (mk_bubble_config (fst (bubble_turn t (bc_shared c) l))
         (set_nth i (bc_threads c) (snd (bubble_turn t (bc_shared c) l)))).

(** [gpu_nlist_bubble_aabbs]: the [cudaMemset] of the first
    [nleafs - ntypes] locks, then the launch of [nleafs/block_size + 1]
    blocks. *)
Definition gpu_nlist_bubble_aabbs (t : bubble_tree) (d_node_locks0 : mem Z)
    (d_tree_aabbs0 : mem Scalar4) (block_size : Z) : bubble_config :=
  let locks := fun k =>
    if (0 <=? k) && (k <? wrap32 (bt_nleafs t - bt_ntypes t)) then 0
    else d_node_locks0 k in
  let sh := mk_bubble_shared locks d_tree_aabbs0 in
  mk_bubble_config sh (map (bubble_enter t sh) (grid_threads (bt_nleafs t) block_size)).

Definition bubble_finished (c : bubble_config) : Prop :=
  Forall (fun th => th = None) (bc_threads c).

(** The slot of the sibling's box as the second thread at a node works it
    out (lines 606 to 615). *)
Definition bubble_sibling (t : bubble_tree) (l : bubble_local) : Z :=
  let '(left_child, right_child) := d_node_children t (cur_parent l) in
  let cur_sibling :=
    Z.shiftr (if left_child =? cur_child l then right_child else left_child) 1 in
  let skip_ahead :=
    ((left_child =? cur_child l) && negb (Z.testbit right_child 0))
    || ((right_child =? cur_child l) && negb (Z.testbit left_child 0)) in
  wrap32 (cur_sibling + (if skip_ahead then 1 else 0) * bt_nleafs t).

(** ** A hierarchy on which the bubbling is followed

    The arrays [gpu_nlist_gen_hierarchy] leaves for one type of four leaves
    with the distinct codes [0; 1; 2; 4]: node 0 is the root with children
    node 2 and leaf 3, node 2 has children node 1 and leaf 2, node 1 has
    children leaf 0 and leaf 1. *)
Definition chain_tree : bubble_tree :=
  let h :=
    hierarchy_after
      (mk_hierarchy (fun _ => 0) (fun _ => 0) (fun _ => (0, 0)))
      (gpu_nlist_gen_hierarchy (of_list 0 [0; 1; 2; 4]) (of_list 0 [16]) 4 1 4 4) in
  mk_bubble_tree (h_leaf_parents h) (h_node_parents h) (h_node_children h) 1 4.

(** The registers of the thread of leaf [idx] when it enters the loop. *)
Definition chain_local (d_tree_aabbs0 : mem Scalar4) (idx parent : Z) : bubble_local :=
  mk_bubble_local (2 * idx + 1) parent
    (set_w (d_tree_aabbs0 (2 * idx)) 0) (set_w (d_tree_aabbs0 (2 * idx + 1)) 0).

Definition still_in (done : bool) (l : bubble_local) : option bubble_local :=
  if done then None else Some l.

(** The configurations a launch on [chain_tree] goes through: each of the
    four threads has either not moved or left, the locks count the threads
    that have left, and the boxes of node 2 and of the root are those the
    launch started with. *)
Definition chain_invariant (d_tree_aabbs0 : mem Scalar4) (c : bubble_config) : Prop :=
  exists b0 b1 b2 b3 : bool,
    bc_threads c
    = [still_in b0 (chain_local d_tree_aabbs0 0 1);
       still_in b1 (chain_local d_tree_aabbs0 1 1);
       still_in b2 (chain_local d_tree_aabbs0 2 2);
       still_in b3 (chain_local d_tree_aabbs0 3 0);
       None; None; None; None]
    /\ d_node_locks (bc_shared c) 0 = Z.b2z b3
    /\ d_node_locks (bc_shared c) 1 = Z.b2z b0 + Z.b2z b1
    /\ d_node_locks (bc_shared c) 2 = Z.b2z b2
    /\ (forall k, k = 8 \/ k = 9 \/ k = 12 \/ k = 13 ->
          d_tree_aabbs (bc_shared c) k = d_tree_aabbs0 k).

(** ** gpu_nlist_traverse_tree_kernel

    [AABBTreeGPU] and [Index2D] are declared in headers that are not part
    of the sources at hand: the former is the record of the two fields the
    kernel reads, the latter the row-major pair index [j * ntypes + i]. *)

Record AABBTreeGPU : Type := mk_AABBTreeGPU { num_nodes : Z; node_head : Z }.

Definition typpair_idx (ntypes i j : Z) : Z := wrap32 (wrap32 (j * ntypes) + i).

Record traverse_args : Type := mk_traverse_args
  { d_Nmax : mem Z;
    d_head_list : mem Z;
    d_pos : mem Scalar4;
    d_body : mem Z;
    ta_N : Z;
    d_aabb_trees : mem AABBTreeGPU;
    d_aabb_node_bounds : mem Scalar4;
    d_aabb_node_head_idx : mem Z;
    d_aabb_leaf_particles : mem Z;
    d_leaf_xyzf : mem Scalar4;
    d_leaf_db : mem Scalar2;
    d_image_list : mem Scalar3;
    nimages : Z;
    d_r_cut : mem Scalar;
    r_buff : Scalar;
    ta_ntypes : Z;
    ta_flags : Z }.

(** The memory operations of the kernel on its outputs. *)
Inductive traverse_op : Type :=
| St_nlist (slot j : Z)
| St_n_neigh (slot n : Z)
| St_last_updated_pos (slot : Z) (p : Scalar4)
| AtomicMax_conditions (slot n : Z).

(** The registers of a thread that change along the search. *)
Record traverse_state : Type := mk_traverse_state
  { n_neigh_i : Z;
    ts_ops : list traverse_op }.

(** What a thread reads once, before the loops. *)
Record traverse_particle : Type := mk_traverse_particle
  { my_pidx : Z;
    postype_i : Scalar4;
    type_i : Z;
    body_i : Z;
    nlist_head_i : Z }.

Definition filter_body (a : traverse_args) : bool := Z.testbit (ta_flags a) 0.
Definition s_r_list (a : traverse_args) (k : Z) : Scalar := (d_r_cut a k + r_buff a)%Q.
Definition s_Nmax (a : traverse_args) (k : Z) : Z := d_Nmax a k.

(** Lines 782 to 785. *)
Definition excluded (a : traverse_args) (me : traverse_particle) (j body_j : Z) : bool :=
  let excluded := my_pidx me =? j in
  if filter_body a && negb (body_i me =? 0xffffffff)
  then excluded || (body_i me =? wrap32 body_j)
  else excluded.

(** Lines 793 to 800: a candidate at squared distance [dr2]. *)
Definition record_neighbor (a : traverse_args) (me : traverse_particle)
    (r_cutsq_i dr2 : Scalar) (j : Z) (st : traverse_state) : traverse_state :=
  if Qleb dr2 r_cutsq_i then
    mk_traverse_state
      (wrap32 (n_neigh_i st + 1))
      (if n_neigh_i st <? s_Nmax a (type_i me)
       then ts_ops st ++ [St_nlist (wrap32 (nlist_head_i me + n_neigh_i st)) j]
       else ts_ops st)
  else st.

Definition dot3 (u v : Scalar3) : Scalar :=
  (s3_x u * s3_x v + s3_y u * s3_y v + s3_z u * s3_z v)%Q.
Definition sub3 (u v : Scalar3) : Scalar3 :=
  make_scalar3 (s3_x u - s3_x v)%Q (s3_y u - s3_y v)%Q (s3_z u - s3_z v)%Q.
Definition add3 (u v : Scalar3) : Scalar3 :=
  make_scalar3 (s3_x u + s3_x v)%Q (s3_y u + s3_y v)%Q (s3_z u + s3_z v)%Q.

(** The body of the loop over the particles of a leaf (lines 775 to 801). *)
Definition visit_candidate (a : traverse_args) (me : traverse_particle)
    (cur_aabb_tree : AABBTreeGPU) (pos_i_image : Scalar3) (r_cutsq_i : Scalar)
    (cur_node_idx cur_p : Z) (st : traverse_state) : traverse_state :=
  let leaf_slot :=
    wrap32 (d_aabb_node_head_idx a (wrap32 (node_head cur_aabb_tree + cur_node_idx))
            + cur_p) in
  let cur_xyzf := d_leaf_xyzf a leaf_slot in
  let pos_j := make_scalar3 (s4_x cur_xyzf) (s4_y cur_xyzf) (s4_z cur_xyzf) in
  let j := wrap32 (s4_w cur_xyzf) in
  let cur_db := d_leaf_db a leaf_slot in
  if negb (excluded a me j (s2_y cur_db)) then
    let drij := sub3 pos_j pos_i_image in
    let dr2 := dot3 drij drij in
    record_neighbor a me r_cutsq_i dr2 j st
  else st.

Fixpoint particle_loop (count : nat) (a : traverse_args) (me : traverse_particle)
    (cur_aabb_tree : AABBTreeGPU) (pos_i_image : Scalar3) (r_cutsq_i : Scalar)
    (cur_node_idx cur_p : Z) (st : traverse_state) : traverse_state :=
  match count with
  | O => st
  | S c =>
      particle_loop c a me cur_aabb_tree pos_i_image r_cutsq_i cur_node_idx
        (cur_p + 1)
        (visit_candidate a me cur_aabb_tree pos_i_image r_cutsq_i cur_node_idx cur_p st)
  end.

(** The test of lines 766 to 771. *)
Definition overlaps (aabb_lower aabb_upper : Scalar3) (lower_np upper_skip : Scalar4)
  : bool :=
  negb (Qltb (s3_x aabb_upper) (s4_x lower_np)
        || Qltb (s4_x upper_skip) (s3_x aabb_lower)
        || Qltb (s3_y aabb_upper) (s4_y lower_np)
        || Qltb (s4_y upper_skip) (s3_y aabb_lower)
        || Qltb (s3_z aabb_upper) (s4_z lower_np)
        || Qltb (s4_z upper_skip) (s3_z aabb_lower)).

(** The stackless search (lines 755 to 809), with a fuel: the cursor can
    be moved by any amount the tree stores in its skip fields. *)
Fixpoint node_loop (fuel : nat) (a : traverse_args) (me : traverse_particle)
    (cur_aabb_tree : AABBTreeGPU) (pos_i_image : Scalar3) (r_cut_i r_cutsq_i : Scalar)
    (cur_node_idx : Z) (st : traverse_state) : option traverse_state :=
  match fuel with
  | O => None
  | S f =>
      if cur_node_idx <? num_nodes cur_aabb_tree then
        let slot := wrap32 (2 * wrap32 (node_head cur_aabb_tree + cur_node_idx)) in
        let upper_skip := d_aabb_node_bounds a slot in
        let lower_np := d_aabb_node_bounds a (wrap32 (slot + 1)) in
        let aabb_upper :=
          make_scalar3 (s3_x pos_i_image + r_cut_i)%Q (s3_y pos_i_image + r_cut_i)%Q
            (s3_z pos_i_image + r_cut_i)%Q in
        let aabb_lower :=
          make_scalar3 (s3_x pos_i_image - r_cut_i)%Q (s3_y pos_i_image - r_cut_i)%Q
            (s3_z pos_i_image - r_cut_i)%Q in
        if overlaps aabb_lower aabb_upper lower_np upper_skip then
          node_loop f a me cur_aabb_tree pos_i_image r_cut_i r_cutsq_i
            (wrap32 (cur_node_idx + 1))
            (particle_loop (Z.to_nat (wrap32 (s4_w lower_np))) a me cur_aabb_tree
               pos_i_image r_cutsq_i cur_node_idx 0 st)
        else
          node_loop f a me cur_aabb_tree pos_i_image r_cut_i r_cutsq_i
            (wrap32 (wrap32 (cur_node_idx + s4_w upper_skip) + 1)) st
      else Some st
  end.

Fixpoint image_loop (count : nat) (a : traverse_args) (me : traverse_particle)
    (cur_aabb_tree : AABBTreeGPU) (r_cut_i r_cutsq_i : Scalar)
    (cur_image : Z) (st : traverse_state) : option traverse_state :=
  match count with
  | O => Some st
  | S c =>
      let pos_i := make_scalar3 (s4_x (postype_i me)) (s4_y (postype_i me))
                     (s4_z (postype_i me)) in
      let pos_i_image := add3 pos_i (d_image_list a cur_image) in
      match node_loop (S (Z.to_nat (num_nodes cur_aabb_tree))) a me cur_aabb_tree
              pos_i_image r_cut_i r_cutsq_i 0 st with
      | None => None
      | Some st' => image_loop c a me cur_aabb_tree r_cut_i r_cutsq_i (cur_image + 1) st'
      end
  end.

Fixpoint pair_type_loop (count : nat) (a : traverse_args) (me : traverse_particle)
    (cur_pair_type : Z) (st : traverse_state) : option traverse_state :=
  match count with
  | O => Some st
  | S c =>
      let r_cut_i := s_r_list a (typpair_idx (ta_ntypes a) (type_i me) cur_pair_type) in
      let r_cutsq_i := (r_cut_i * r_cut_i)%Q in
      let cur_aabb_tree := d_aabb_trees a cur_pair_type in
      match image_loop (Z.to_nat (nimages a)) a me cur_aabb_tree r_cut_i r_cutsq_i 0 st with
      | None => None
      | Some st' => pair_type_loop c a me (cur_pair_type + 1) st'
      end
  end.

Definition load_particle (a : traverse_args) (idx : Z) : traverse_particle :=
  let pidx := d_aabb_leaf_particles a idx in
  mk_traverse_particle pidx (d_pos a pidx) (wrap32 (s4_w (d_pos a pidx)))
    (d_body a pidx) (d_head_list a pidx).

(** One thread of the kernel: its memory operations in program order;
    [None] when the stackless search runs out of fuel. *)
Definition gpu_nlist_traverse_tree_kernel (a : traverse_args) (idx : Z)
  : option (list traverse_op) :=
  if ta_N a <=? idx then Some []
  else
    let me := load_particle a idx in
    match pair_type_loop (Z.to_nat (ta_ntypes a)) a me 0 (mk_traverse_state 0 []) with
    | None => None
    | Some st =>
        Some (ts_ops st
              ++ [St_n_neigh (my_pidx me) (n_neigh_i st);
                  St_last_updated_pos (my_pidx me) (postype_i me)]
              ++ (if s_Nmax a (type_i me) <=? n_neigh_i st
                  then [AtomicMax_conditions (type_i me) (n_neigh_i st)] else []))
    end.

(** The effect of the operations on the output arrays. *)
Record traverse_out : Type := mk_traverse_out
  { d_nlist : mem Z;
    d_n_neigh : mem Z;
    d_last_updated_pos : mem Scalar4;
    d_conditions : mem Z }.

Definition apply_op (o : traverse_out) (op : traverse_op) : traverse_out :=
  match op with
  | St_nlist slot j =>
      mk_traverse_out (upd (d_nlist o) slot j) (d_n_neigh o) (d_last_updated_pos o)
        (d_conditions o)
  | St_n_neigh slot n =>
      mk_traverse_out (d_nlist o) (upd (d_n_neigh o) slot n) (d_last_updated_pos o)
        (d_conditions o)
  | St_last_updated_pos slot p =>
      mk_traverse_out (d_nlist o) (d_n_neigh o) (upd (d_last_updated_pos o) slot p)
        (d_conditions o)
  | AtomicMax_conditions slot n =>
      mk_traverse_out (d_nlist o) (d_n_neigh o) (d_last_updated_pos o)
        (upd (d_conditions o) slot (Z.max (d_conditions o slot) n))
  end.

Definition apply_ops (o : traverse_out) (ops : list traverse_op) : traverse_out :=
  fold_left apply_op ops o.

(** ** Reference notions the properties are stated with *)

(** Number of leading bits, among the [n] lowest, on which [a] and [b]
    agree, counted from bit [n-1] downwards. *)
Fixpoint leading_common (n : nat) (a b : Z) : nat :=
  match n with
  | O => O
  | S m =>
      if Bool.eqb (Z.testbit a (Z.of_nat m)) (Z.testbit b (Z.of_nat m))
      then S (leading_common m a b) else O
  end.

(** Length of the common prefix of two 32-bit words. *)
Definition common_prefix_length (a b : Z) : Z := Z.of_nat (leading_common 32 a b).

(** The [n] lowest bits of [v], each followed by two zero bits. *)
Fixpoint insert_zeros (n : nat) (v : Z) : Z :=
  match n with
  | O => 0
  | S m => Z.b2z (Z.odd v) + 8 * insert_zeros m (Z.div2 v)
  end.

(** What the kernel reads about the candidate in position [cur_p] of the
    leaf [cur_node_idx] (lines 776 to 791). *)
Definition candidate_slot (a : traverse_args) (t : AABBTreeGPU) (cur_node_idx cur_p : Z)
  : Z :=
  wrap32 (d_aabb_node_head_idx a (wrap32 (node_head t + cur_node_idx)) + cur_p).

Definition candidate_j (a : traverse_args) (t : AABBTreeGPU) (cur_node_idx cur_p : Z)
  : Z :=
  wrap32 (s4_w (d_leaf_xyzf a (candidate_slot a t cur_node_idx cur_p))).

Definition candidate_body (a : traverse_args) (t : AABBTreeGPU) (cur_node_idx cur_p : Z)
  : Z :=
  s2_y (d_leaf_db a (candidate_slot a t cur_node_idx cur_p)).

Definition candidate_dr2 (a : traverse_args) (t : AABBTreeGPU) (pos_i_image : Scalar3)
    (cur_node_idx cur_p : Z) : Scalar :=
  let cur_xyzf := d_leaf_xyzf a (candidate_slot a t cur_node_idx cur_p) in
  let drij :=
    sub3 (make_scalar3 (s4_x cur_xyzf) (s4_y cur_xyzf) (s4_z cur_xyzf)) pos_i_image in
  dot3 drij drij.

(** The position of the thread's particle seen from image [cur_image]. *)
Definition image_position (a : traverse_args) (me : traverse_particle) (cur_image : Z)
  : Scalar3 :=
  add3 (make_scalar3 (s4_x (postype_i me)) (s4_y (postype_i me)) (s4_z (postype_i me)))
       (d_image_list a cur_image).

(** The same arguments with a capacity no count can reach: the run that
    records every neighbour. *)
Definition uncapped (a : traverse_args) : traverse_args :=
  mk_traverse_args (fun _ => 2 ^ 32) (d_head_list a) (d_pos a) (d_body a) (ta_N a)
    (d_aabb_trees a) (d_aabb_node_bounds a) (d_aabb_node_head_idx a)
    (d_aabb_leaf_particles a) (d_leaf_xyzf a) (d_leaf_db a) (d_image_list a)
    (nimages a) (d_r_cut a) (r_buff a) (ta_ntypes a) (ta_flags a).

(** A store into the neighbour list of the particle whose list starts at
    [head], at a position below [cap]. *)
Definition below_capacity (head cap : Z) (op : traverse_op) : bool :=
  match op with
  | St_nlist slot _ => wrap32 (slot - head) <? cap
  | _ => true
  end.

Definition is_nlist_store (op : traverse_op) : Prop :=
  match op with St_nlist _ _ => True | _ => False end.

(** The run under capacity [cap] against the run that stores everything:
    same count, and the stores of the former are the stores of the latter
    that fall below the capacity. *)
Definition capped_run (head cap : Z) (st st' : traverse_state) : Prop :=
  n_neigh_i st = n_neigh_i st'
  /\ is_u32 (n_neigh_i st')
  /\ ts_ops st = filter (below_capacity head cap) (ts_ops st')
  /\ Forall is_nlist_store (ts_ops st').

Definition capped_run_opt (head cap : Z) (o o' : option traverse_state) : Prop :=
  match o, o' with
  | Some st, Some st' => capped_run head cap st st'
  | None, None => True
  | _, _ => False
  end.

(** No store into the neighbour list writes the thread's own particle. *)
Definition no_self_store (me : traverse_particle) (st : traverse_state) : Prop :=
  forall slot j, In (St_nlist slot j) (ts_ops st) -> j <> my_pidx me.

(** The operations are stores into the neighbour list at the consecutive
    slots [head + o], [head + o + 1], ... *)
Fixpoint contiguous_from (head o : Z) (ops : list traverse_op) : Prop :=
  match ops with
  | [] => True
  | op :: q =>
      (exists j, op = St_nlist (wrap32 (head + o)) j) /\ contiguous_from head (o + 1) q
  end.

(** The run that stores everything keeps its stores consecutive and
    counts them. *)
Definition counts_its_stores (head : Z) (st : traverse_state) : Prop :=
  n_neigh_i st = wrap32 (Z.of_nat (length (ts_ops st)))
  /\ contiguous_from head 0 (ts_ops st).

(** The squared cutoff the thread uses against the tree of type [ty]. *)
Definition r_cutsq_of (a : traverse_args) (me : traverse_particle) (ty : Z) : Scalar :=
  let r_cut_i := s_r_list a (typpair_idx (ta_ntypes a) (type_i me) ty) in
  (r_cut_i * r_cut_i)%Q.

(** The number of particles the kernel reads for node [node] of a tree. *)
Definition node_particles (a : traverse_args) (t : AABBTreeGPU) (node : Z) : Z :=
  wrap32 (s4_w (d_aabb_node_bounds a
                  (wrap32 (wrap32 (2 * wrap32 (node_head t + node)) + 1)))).

(** A store into the neighbour list writes a candidate that some tree
    holds, that is not excluded, and that lies within the cutoff of the
    pair of types from some image of the thread's particle. *)
Definition found_within_cutoff (a : traverse_args) (me : traverse_particle)
    (op : traverse_op) : Prop :=
  match op with
  | St_nlist _ j =>
      exists ty img node p,
        0 <= ty < ta_ntypes a /\ 0 <= img < nimages a
        /\ 0 <= node < num_nodes (d_aabb_trees a ty)
        /\ 0 <= p < node_particles a (d_aabb_trees a ty) node
        /\ j = candidate_j a (d_aabb_trees a ty) node p
        /\ excluded a me j (candidate_body a (d_aabb_trees a ty) node p) = false
        /\ Qleb (candidate_dr2 a (d_aabb_trees a ty) (image_position a me img) node p)
                (r_cutsq_of a me ty) = true
  | _ => True
  end.

(** The skip fields of a tree move the cursor forward and stay within
    [unsigned int]. *)
Definition skips_ok (a : traverse_args) (t : AABBTreeGPU) : Prop :=
  is_u32 (num_nodes t)
  /\ forall k, 0 <= k < num_nodes t ->
       let skip := s4_w (d_aabb_node_bounds a (wrap32 (2 * wrap32 (node_head t + k)))) in
       0 <= skip /\ k + skip + 1 < 2 ^ 32.

(** The exclusion rule with the self test confined to the primary image
    (image 0), as opposed to [excluded], which does not look at the image. *)
Definition excluded_primary_only (a : traverse_args) (me : traverse_particle)
    (cur_image j body_j : Z) : bool :=
  ((cur_image =? 0) && (my_pidx me =? j))
  || (filter_body a && negb (body_i me =? 0xffffffff) && (body_i me =? wrap32 body_j)).

(** ** A small scene

    Two particles of one type on the x axis, one leaf holding both, two
    periodic images, room for one neighbour per particle. *)
Definition point3 (x y z : Z) : Scalar3 :=
  make_scalar3 (inject_Z x) (inject_Z y) (inject_Z z).
Definition point4 (x y z w : Z) : Scalar4 :=
  make_scalar4 (inject_Z x) (inject_Z y) (inject_Z z) w.

Definition demo_args : traverse_args :=
  mk_traverse_args
    (of_list 0 [1])
    (of_list 0 [0; 4])
    (of_list (point4 0 0 0 0) [point4 0 0 0 0; point4 1 0 0 0])
    (of_list 0 [0xffffffff; 0xffffffff])
    2
    (of_list (mk_AABBTreeGPU 0 0) [mk_AABBTreeGPU 1 0])
    (of_list (point4 0 0 0 0) [point4 1 0 0 0; point4 0 0 0 2])
    (of_list 0 [0])
    (of_list 0 [0; 1])
    (of_list (point4 0 0 0 0) [point4 0 0 0 0; point4 1 0 0 1])
    (of_list (make_scalar2 1%Q (-1)) [make_scalar2 1%Q (-1); make_scalar2 1%Q (-1)])
    (of_list (point3 0 0 0) [point3 0 0 0; point3 1 0 0])
    2
    (of_list 0%Q [1%Q])
    (1 # 2)
    1
    0.

(* ================================================================== *)
(** * Part II: properties                                              *)
(* ================================================================== *)

(** Closed arithmetic side conditions are settled by evaluation. *)
Ltac closed_arith :=
  vm_compute; repeat split; solve [reflexivity | discriminate].

(** ** Machine integers *)

Lemma wrap32_small z : 0 <= z < 2 ^ 32 -> wrap32 z = z.
Proof. intros H. unfold wrap32. now apply Z.mod_small. Qed.

Lemma wrap32_range z : 0 <= wrap32 z < 2 ^ 32.
Proof. unfold wrap32. apply Z.mod_pos_bound. lia. Qed.

Lemma upd_same {A} (m : mem A) i v : upd m i v i = v.
Proof. unfold upd. now rewrite Z.eqb_refl. Qed.

Lemma upd_other {A} (m : mem A) i k v : k <> i -> upd m i v k = m k.
Proof. unfold upd. intros H. apply Z.eqb_neq in H. now rewrite H. Qed.

(** ** Leading zeros and common prefixes *)

Lemma leading_common_all n a b :
  (forall m, 0 <= m < Z.of_nat n -> Z.testbit a m = Z.testbit b m) ->
  leading_common n a b = n.
Proof.
  induction n as [|n IH]; intros H; simpl; [reflexivity|].
  rewrite (H (Z.of_nat n)) by lia.
  rewrite Bool.eqb_reflx. f_equal. apply IH. intros m Hm. apply H. lia.
Qed.

Lemma leading_common_first_diff n a b p :
  (p < n)%nat ->
  (forall m, Z.of_nat p < m < Z.of_nat n -> Z.testbit a m = Z.testbit b m) ->
  Z.testbit a (Z.of_nat p) <> Z.testbit b (Z.of_nat p) ->
  leading_common n a b = (n - 1 - p)%nat.
Proof.
  induction n as [|n IH]; intros Hp Hhigh Hdiff; [lia|].
  simpl. destruct (Nat.eq_dec p n) as [->|Hne].
  - apply Bool.eqb_false_iff in Hdiff. rewrite Hdiff. lia.
  - rewrite (Hhigh (Z.of_nat n)) by lia. rewrite Bool.eqb_reflx.
    rewrite IH; [lia|lia| |assumption].
    intros m Hm. apply Hhigh. lia.
Qed.

Lemma clz_lxor_common_prefix a b :
  is_u32 a -> is_u32 b -> clz (Z.lxor a b) = common_prefix_length a b.
Proof.
  intros Ha Hb. unfold clz, common_prefix_length, is_u32 in *.
  destruct (Z.eqb_spec (Z.lxor a b) 0) as [E|E].
  - apply Z.lxor_eq in E. subst b.
    rewrite leading_common_all; [reflexivity|reflexivity].
  - assert (Hx : 0 < Z.lxor a b).
    { assert (0 <= Z.lxor a b) by (apply Z.lxor_nonneg; lia). lia. }
    assert (Hlt : Z.lxor a b < 2 ^ 32).
    { apply Z.log2_lt_cancel. rewrite Z.log2_pow2 by lia.
      destruct (Z.eq_dec a 0) as [->|Ha0].
      - rewrite Z.lxor_0_l. destruct (Z.eq_dec b 0) as [->|Hb0]; [discriminate|].
        apply Z.log2_lt_pow2; lia.
      - destruct (Z.eq_dec b 0) as [->|Hb0].
        + rewrite Z.lxor_0_r. apply Z.log2_lt_pow2; lia.
        + eapply Z.le_lt_trans; [apply Z.log2_lxor; lia|].
          apply Z.max_lub_lt; apply Z.log2_lt_pow2; lia. }
    pose proof (Z.log2_nonneg (Z.lxor a b)) as Hl0.
    assert (Hl : Z.log2 (Z.lxor a b) < 32) by (apply Z.log2_lt_pow2; lia).
    rewrite (leading_common_first_diff 32 a b (Z.to_nat (Z.log2 (Z.lxor a b)))).
    + lia.
    + lia.
    + intros m Hm. rewrite Z2Nat.id in Hm by lia.
      assert (Hb' : Z.testbit (Z.lxor a b) m = false)
        by (apply Z.bits_above_log2; lia).
      rewrite Z.lxor_spec in Hb'. now apply Bool.xorb_eq.
    + rewrite Z2Nat.id by lia.
      pose proof (Z.bit_log2 (Z.lxor a b) Hx) as Hb'.
      rewrite Z.lxor_spec in Hb'. intros Heq. rewrite Heq in Hb'.
      now rewrite Bool.xorb_nilpotent in Hb'.
Qed.

(** C6. [delta] is -1 when [j] lies outside [[min_idx, max_idx]]; inside,
    it is the number of leading bits the two Morton codes have in common
    and, when the codes are equal, the number of leading bits the two
    indices [i] and [j] have in common. *)
Theorem delta_longest_common_prefix :
  forall (d_morton_codes : mem Z) (i j min_idx max_idx : Z),
    is_u32 i -> is_u32 j ->
    0 <= min_idx < 2 ^ 31 -> 0 <= max_idx < 2 ^ 31 ->
    is_u32 (d_morton_codes i) -> is_u32 (d_morton_codes j) ->
    (j < min_idx \/ max_idx < j ->
       delta d_morton_codes i j min_idx max_idx = -1)
    /\ (min_idx <= j <= max_idx -> d_morton_codes i <> d_morton_codes j ->
          delta d_morton_codes i j min_idx max_idx
          = common_prefix_length (d_morton_codes i) (d_morton_codes j))
    /\ (min_idx <= j <= max_idx -> d_morton_codes i = d_morton_codes j ->
          delta d_morton_codes i j min_idx max_idx = common_prefix_length i j).
Proof.
  intros codes i j lo hi Hi Hj Hlo Hhi Hci Hcj. unfold delta.
  rewrite !wrap32_small by lia.
  repeat split.
  - intros [H|H].
    + replace (j <? lo) with true by (symmetry; apply Z.ltb_lt; lia).
      now rewrite Bool.orb_true_r.
    + replace (hi <? j) with true by (symmetry; apply Z.ltb_lt; lia).
      reflexivity.
  - intros H Hne.
    replace (hi <? j) with false by (symmetry; apply Z.ltb_ge; lia).
    replace (j <? lo) with false by (symmetry; apply Z.ltb_ge; lia).
    simpl. apply Z.eqb_neq in Hne. rewrite Hne.
    now apply clz_lxor_common_prefix.
  - intros H He.
    replace (hi <? j) with false by (symmetry; apply Z.ltb_ge; lia).
    replace (j <? lo) with false by (symmetry; apply Z.ltb_ge; lia).
    simpl. rewrite He, Z.eqb_refl. now apply clz_lxor_common_prefix.
Qed.

Lemma delta_longest_common_prefix_witness :
  delta (of_list 0 [4; 4; 4; 5]) 0 1 0 3 = common_prefix_length 0 1.
Proof.
  apply (delta_longest_common_prefix (of_list 0 [4; 4; 4; 5]) 0 1 0 3);
    closed_arith.
Defined.

(** ** Bit expansion and interleaving *)

Lemma testbit_low3 r x m :
  0 <= r < 8 -> 0 <= m < 3 -> Z.testbit (r + 8 * x) m = Z.testbit r m.
Proof.
  intros Hr Hm.
  rewrite <- (Z.mod_pow2_bits_low (r + 8 * x) 3 m) by lia.
  change (2 ^ 3) with 8.
  replace ((r + 8 * x) mod 8) with r; [reflexivity|].
  replace (r + 8 * x) with (r + x * 8) by lia.
  rewrite Z.mod_add by lia. now rewrite Z.mod_small.
Qed.

Lemma testbit_high3 r x m :
  0 <= r < 8 -> 3 <= m -> Z.testbit (r + 8 * x) m = Z.testbit x (m - 3).
Proof.
  intros Hr Hm.
  replace m with ((m - 3) + 3) at 1 by lia.
  rewrite <- Z.div_pow2_bits by lia.
  change (2 ^ 3) with 8.
  replace ((r + 8 * x) / 8) with x; [reflexivity|].
  replace (r + 8 * x) with (r + x * 8) by lia.
  rewrite Z.div_add by lia. rewrite (Z.div_small r 8) by lia. lia.
Qed.

Lemma insert_zeros_range n v : 0 <= insert_zeros n v < 8 ^ Z.of_nat n.
Proof.
  revert v. induction n as [|n IH]; intros v.
  - simpl. lia.
  - rewrite Nat2Z.inj_succ, Z.pow_succ_r by lia.
    change (insert_zeros (S n) v)
      with (Z.b2z (Z.odd v) + 8 * insert_zeros n (Z.div2 v)).
    specialize (IH (Z.div2 v)).
    assert (Hb : 0 <= Z.b2z (Z.odd v) <= 1) by (destruct (Z.odd v); simpl; lia).
    lia.
Qed.

(** Bit [m] of the expansion is bit [m/3] of the argument when [m] is a
    multiple of 3 below [3n], and zero otherwise. *)
Lemma insert_zeros_testbit n v m :
  0 <= m ->
  Z.testbit (insert_zeros n v) m
  = (m mod 3 =? 0) && (m / 3 <? Z.of_nat n) && Z.testbit v (m / 3).
Proof.
  revert v m. induction n as [|n IH]; intros v m Hm.
  - simpl insert_zeros. rewrite Z.bits_0.
    replace (m / 3 <? Z.of_nat 0) with false.
    + now rewrite Bool.andb_false_r.
    + symmetry. apply Z.ltb_ge. simpl. apply Z.div_pos; lia.
  - change (insert_zeros (S n) v)
      with (Z.b2z (Z.odd v) + 8 * insert_zeros n (Z.div2 v)).
    assert (Hb : 0 <= Z.b2z (Z.odd v) < 8) by (destruct (Z.odd v); simpl; lia).
    destruct (Z_lt_le_dec m 3) as [Hlow|Hhigh].
    + rewrite testbit_low3 by lia.
      assert (Hcases : m = 0 \/ m = 1 \/ m = 2) by lia.
      destruct Hcases as [->|[->| ->]].
      * change (0 mod 3 =? 0) with true. change (0 / 3) with 0.
        rewrite (Z.bit0_odd v).
        replace (0 <? Z.of_nat (S n)) with true by (symmetry; apply Z.ltb_lt; lia).
        destruct (Z.odd v); reflexivity.
      * destruct (Z.odd v); reflexivity.
      * destruct (Z.odd v); reflexivity.
    + rewrite testbit_high3 by lia. rewrite IH by lia.
      replace (m mod 3) with ((m - 3) mod 3)
        by (replace m with (m - 3 + 1 * 3) at 2 by lia; now rewrite Z.mod_add by lia).
      replace (m / 3) with ((m - 3) / 3 + 1)
        by (replace m with (m - 3 + 1 * 3) at 2 by lia; now rewrite Z.div_add by lia).
      assert (Hq : 0 <= (m - 3) / 3) by (apply Z.div_pos; lia).
      replace ((m - 3) / 3 + 1 <? Z.of_nat (S n)) with ((m - 3) / 3 <? Z.of_nat n).
      * f_equal. rewrite Z.div2_spec, Z.shiftr_spec by lia. reflexivity.
      * destruct (Z.ltb_spec ((m - 3) / 3) (Z.of_nat n));
          symmetry; [apply Z.ltb_lt|apply Z.ltb_ge]; lia.
Qed.

(** The multiply-and-mask sequence agrees with the bit-by-bit expansion on
    every 10-bit argument (checked on each of the 1024 arguments). *)
Lemma expandBits_insert_zeros v :
  0 <= v < 1024 -> expandBits v = insert_zeros 10 v.
Proof.
  intros Hv.
  assert (Hall : forallb (fun n => expandBits (Z.of_nat n) =? insert_zeros 10 (Z.of_nat n))
                   (seq 0 1024) = true) by (vm_compute; reflexivity).
  rewrite forallb_forall in Hall.
  specialize (Hall (Z.to_nat v)).
  rewrite Z2Nat.id in Hall by lia. apply Z.eqb_eq, Hall.
  apply in_seq. lia.
Qed.

Lemma interleave_step n i j k :
  4 * insert_zeros (S n) i + 2 * insert_zeros (S n) j + insert_zeros (S n) k
  = (4 * Z.b2z (Z.odd i) + 2 * Z.b2z (Z.odd j) + Z.b2z (Z.odd k))
    + 8 * (4 * insert_zeros n (Z.div2 i) + 2 * insert_zeros n (Z.div2 j)
           + insert_zeros n (Z.div2 k)).
Proof.
  change (insert_zeros (S n) i) with (Z.b2z (Z.odd i) + 8 * insert_zeros n (Z.div2 i)).
  change (insert_zeros (S n) j) with (Z.b2z (Z.odd j) + 8 * insert_zeros n (Z.div2 j)).
  change (insert_zeros (S n) k) with (Z.b2z (Z.odd k) + 8 * insert_zeros n (Z.div2 k)).
  lia.
Qed.

Lemma interleave_range n i j k :
  0 <= 4 * insert_zeros n i + 2 * insert_zeros n j + insert_zeros n k
    < 8 ^ Z.of_nat n.
Proof.
  revert i j k. induction n as [|n IH]; intros i j k.
  - simpl. lia.
  - rewrite interleave_step, Nat2Z.inj_succ, Z.pow_succ_r by lia.
    specialize (IH (Z.div2 i) (Z.div2 j) (Z.div2 k)).
    destruct (Z.odd i), (Z.odd j), (Z.odd k); simpl Z.b2z; lia.
Qed.

Lemma testbit_div2 a q : 0 <= q -> Z.testbit (Z.div2 a) q = Z.testbit a (q + 1).
Proof. intros Hq. now rewrite Z.div2_spec, Z.shiftr_spec by lia. Qed.

Lemma interleave_testbit n i j k q :
  0 <= q < Z.of_nat n ->
  let code := 4 * insert_zeros n i + 2 * insert_zeros n j + insert_zeros n k in
  Z.testbit code (3 * q + 2) = Z.testbit i q
  /\ Z.testbit code (3 * q + 1) = Z.testbit j q
  /\ Z.testbit code (3 * q) = Z.testbit k q.
Proof.
  revert i j k q. induction n as [|n IH]; intros i j k q Hq; [lia|].
  cbv zeta. rewrite interleave_step.
  assert (Hr : 0 <= 4 * Z.b2z (Z.odd i) + 2 * Z.b2z (Z.odd j) + Z.b2z (Z.odd k) < 8)
    by (destruct (Z.odd i), (Z.odd j), (Z.odd k); simpl Z.b2z; lia).
  destruct (Z.eq_dec q 0) as [->|Hq0].
  - rewrite !testbit_low3 by lia.
    rewrite <- !Z.bit0_odd.
    destruct (Z.testbit i 0), (Z.testbit j 0), (Z.testbit k 0); repeat split.
  - rewrite !testbit_high3 by lia.
    replace (3 * q + 2 - 3) with (3 * (q - 1) + 2) by lia.
    replace (3 * q + 1 - 3) with (3 * (q - 1) + 1) by lia.
    replace (3 * q - 3) with (3 * (q - 1)) by lia.
    specialize (IH (Z.div2 i) (Z.div2 j) (Z.div2 k) (q - 1)).
    cbv zeta in IH. rewrite !testbit_div2 in IH by lia.
    replace (q - 1 + 1) with q in IH by lia. apply IH. lia.
Qed.

(** C8. On 10-bit bins, [expandBits] puts two zero bits after each bit of
    its argument, and the code the encoder emits,
    [expand(i)*4 + expand(j)*2 + expand(k)], is the 30-bit interleaving
    of the three bins: bit [3n+2] is bit [n] of [i], bit [3n+1] is bit [n]
    of [j], bit [3n] is bit [n] of [k]. *)
Theorem morton_code_interleaves :
  forall i j k : Z,
    0 <= i < 1024 -> 0 <= j < 1024 -> 0 <= k < 1024 ->
    (expandBits i = insert_zeros 10 i
     /\ expandBits j = insert_zeros 10 j
     /\ expandBits k = insert_zeros 10 k)
    /\ (forall v m, 0 <= v < 1024 -> 0 <= m ->
          Z.testbit (expandBits v) m
          = (m mod 3 =? 0) && (m / 3 <? 10) && Z.testbit v (m / 3))
    /\ morton_code i j k = expandBits i * 4 + expandBits j * 2 + expandBits k
    /\ 0 <= morton_code i j k < 2 ^ 30
    /\ (forall n, 0 <= n < 10 ->
          Z.testbit (morton_code i j k) (3 * n + 2) = Z.testbit i n
          /\ Z.testbit (morton_code i j k) (3 * n + 1) = Z.testbit j n
          /\ Z.testbit (morton_code i j k) (3 * n) = Z.testbit k n).
Proof.
  intros i j k Hi Hj Hk.
  pose proof (expandBits_insert_zeros i Hi) as Ei.
  pose proof (expandBits_insert_zeros j Hj) as Ej.
  pose proof (expandBits_insert_zeros k Hk) as Ek.
  pose proof (interleave_range 10 i j k) as Hrange.
  pose proof (insert_zeros_range 10 i) as Ri.
  pose proof (insert_zeros_range 10 j) as Rj.
  pose proof (insert_zeros_range 10 k) as Rk.
  change (8 ^ Z.of_nat 10) with (2 ^ 30) in *.
  assert (Hcode : morton_code i j k
                  = 4 * insert_zeros 10 i + 2 * insert_zeros 10 j + insert_zeros 10 k).
  { unfold morton_code. cbv zeta. rewrite Ei, Ej, Ek.
    rewrite (wrap32_small (insert_zeros 10 i * 4)) by lia.
    rewrite (wrap32_small (insert_zeros 10 j * 2)) by lia.
    rewrite (wrap32_small (insert_zeros 10 i * 4 + insert_zeros 10 j * 2)) by lia.
    rewrite wrap32_small by lia. lia. }
  split; [now repeat split|].
  split.
  { intros v m Hv Hm. rewrite expandBits_insert_zeros by assumption.
    now rewrite insert_zeros_testbit. }
  split; [rewrite Hcode, Ei, Ej, Ek; lia|].
  split; [rewrite Hcode; lia|].
  intros n Hn. rewrite Hcode. apply (interleave_testbit 10 i j k n). simpl. lia.
Qed.

Lemma morton_code_interleaves_witness :
  morton_code 5 3 6 = expandBits 5 * 4 + expandBits 3 * 2 + expandBits 6.
Proof.
  apply (morton_code_interleaves 5 3 6); closed_arith.
Defined.

(** ** findSplit *)

Lemma clz_upper x : 0 <= x -> clz x <= 32.
Proof.
  intros Hx. unfold clz. destruct (Z.eqb_spec x 0); [lia|].
  pose proof (Z.log2_nonneg x). lia.
Qed.

(** Between two codes of a sorted run, the prefix shared with the first
    one can only be longer. *)
Lemma clz_lxor_sorted a b c :
  0 <= a -> a <= b -> b <= c -> clz (Z.lxor a c) <= clz (Z.lxor a b).
Proof.
  intros Ha Hab Hbc.
  assert (Hxc : 0 <= Z.lxor a c) by (apply Z.lxor_nonneg; lia).
  assert (Hxb : 0 <= Z.lxor a b) by (apply Z.lxor_nonneg; lia).
  unfold clz at 1. destruct (Z.eqb_spec (Z.lxor a c) 0) as [E|E].
  - apply Z.lxor_eq in E. assert (b = a) by lia. subst.
    rewrite Z.lxor_nilpotent. reflexivity.
  - set (p := Z.log2 (Z.lxor a c)).
    assert (Hp : 0 <= p) by apply Z.log2_nonneg.
    assert (Hs : Z.shiftr (Z.lxor a c) (p + 1) = 0)
      by (apply Z.shiftr_eq_0; [assumption|unfold p; lia]).
    rewrite Z.shiftr_lxor in Hs. apply Z.lxor_eq in Hs.
    assert (Hsb : Z.shiftr b (p + 1) = Z.shiftr a (p + 1)).
    { rewrite !Z.shiftr_div_pow2 in * by lia.
      assert (0 < 2 ^ (p + 1)) by (apply Z.pow_pos_nonneg; lia).
      pose proof (Z.div_le_mono a b (2 ^ (p + 1))).
      pose proof (Z.div_le_mono b c (2 ^ (p + 1))). lia. }
    assert (Hz : Z.shiftr (Z.lxor a b) (p + 1) = 0)
      by (rewrite Z.shiftr_lxor, Hsb; apply Z.lxor_nilpotent).
    apply Z.shiftr_eq_0_iff in Hz. unfold clz.
    destruct (Z.eqb_spec (Z.lxor a b) 0) as [E'|E']; [pose proof (Z.log2_nonneg (Z.lxor a c)); fold p; lia|].
    destruct Hz as [Hz|[_ Hz]]; [contradiction|]. fold p. lia.
Qed.

Section FindSplitLoop.

Variable d_morton_codes : mem Z.
Variables first_code common_prefix last : Z.

(** The test of line 189 at index [s]. *)
Let longer (s : Z) : bool :=
  common_prefix <? clz (Z.lxor first_code (d_morton_codes s)).

Hypothesis last_small : last < 2 ^ 31.

Lemma findSplit_loop_greatest :
  forall (fuel : nat) (split step : Z),
    (1 <= fuel)%nat -> 1 <= step <= 2 ^ Z.of_nat fuel -> step <= last ->
    0 <= split < last ->
    longer split = true ->
    (forall s, split + step <= s < last -> longer s = false) ->
    (forall s t, split <= s -> s <= t -> t < last ->
                 longer t = true -> longer s = true) ->
    exists g,
      findSplit_loop fuel d_morton_codes first_code common_prefix last split step
      = Some g
      /\ split <= g < last
      /\ longer g = true
      /\ (forall s, g < s < last -> longer s = false).
Proof.
  induction fuel as [|n IH]; intros split step Hfuel Hstep Hsl Hsplit HP Hup Hmono;
    [lia|].
  simpl findSplit_loop.
  rewrite (wrap32_small (step + 1)) by lia.
  rewrite Z.shiftr_div_pow2 by lia. change (2 ^ 1) with 2.
  set (step' := (step + 1) / 2).
  assert (Hstep' : 1 <= step' /\ step <= 2 * step' /\ step' <= step)
    by (unfold step'; split; [|split]; Z.div_mod_to_equations; lia).
  rewrite (wrap32_small (split + step')) by lia.
  assert (Hpow : step' <= 2 ^ Z.of_nat n).
  { rewrite Nat2Z.inj_succ, Z.pow_succ_r in Hstep by lia.
    unfold step'. Z.div_mod_to_equations. lia. }
  fold (longer (split + step')).
  set (split' := if split + step' <? last
                 then if longer (split + step') then split + step' else split
                 else split).
  assert (Hinv : split <= split' < last
                 /\ longer split' = true
                 /\ (forall s, split' + step' <= s < last -> longer s = false)).
  { unfold split'. destruct (Z.ltb_spec (split + step') last) as [Hlt|Hge].
    - destruct (longer (split + step')) eqn:El.
      + split; [lia|]. split; [exact El|]. intros s Hs. apply Hup. lia.
      + split; [lia|]. split; [assumption|]. intros s Hs.
        destruct (longer s) eqn:Es; [|reflexivity].
        rewrite (Hmono (split + step') s) in El; [discriminate|lia|lia|lia|assumption].
    - split; [lia|]. split; [assumption|]. intros s Hs. lia. }
  destruct Hinv as (Hr & HP' & Hup').
  destruct (Z.ltb_spec 1 step') as [Hgo|Hstop].
  - assert (Hn : (1 <= n)%nat).
    { destruct n; [simpl in Hpow; lia|lia]. }
    destruct (IH split' step') as (g & Hg & Hrg & HPg & Hgreat);
      try assumption; try lia.
    + intros s t Hs Hst Ht. apply Hmono; lia.
    + exists g. repeat split; try assumption; lia.
  - exists split'. repeat split; try assumption; try lia.
    intros s Hs. apply Hup'. lia.
Qed.

End FindSplitLoop.

(** C7. On a range [[first, last]] of the sorted codes with [first < last]:
    when the codes at the two ends are equal, [findSplit] returns the
    midpoint [(first + last) / 2]; otherwise it returns the greatest index
    [s] of [[first, last - 1]] whose code shares a strictly longer prefix
    with the code at [first] than the code at [last] does. *)
Theorem findSplit_greatest_longer_prefix :
  forall (d_morton_codes : mem Z) (first last : Z),
    0 <= first -> first < last -> last < 2 ^ 31 ->
    (forall s, first <= s <= last -> is_u32 (d_morton_codes s)) ->
    (forall s t, first <= s -> s <= t -> t <= last ->
                 d_morton_codes s <= d_morton_codes t) ->
    (d_morton_codes first = d_morton_codes last ->
       findSplit d_morton_codes first last = Some ((first + last) / 2))
    /\ (d_morton_codes first <> d_morton_codes last ->
        exists split,
          findSplit d_morton_codes first last = Some split
          /\ first <= split <= last - 1
          /\ common_prefix_length (d_morton_codes first) (d_morton_codes last)
             < common_prefix_length (d_morton_codes first) (d_morton_codes split)
          /\ (forall s, split < s <= last - 1 ->
                ~ common_prefix_length (d_morton_codes first) (d_morton_codes last)
                  < common_prefix_length (d_morton_codes first) (d_morton_codes s))).
Proof.
  intros codes first last Hf Hfl Hl Hu32 Hsorted. split.
  - intros E. unfold findSplit. rewrite E, Z.eqb_refl.
    rewrite wrap32_small by lia. now rewrite Z.shiftr_div_pow2 by lia.
  - intros Hne. unfold findSplit.
    apply Z.eqb_neq in Hne. rewrite Hne. apply Z.eqb_neq in Hne.
    rewrite wrap32_small by lia.
    pose proof (Hu32 first ltac:(lia)) as Hcf.
    pose proof (Hu32 last ltac:(lia)) as Hcl.
    assert (Hcommon : clz (Z.lxor (codes first) (codes last)) < 32).
    { unfold clz. destruct (Z.eqb_spec (Z.lxor (codes first) (codes last)) 0) as [E|E].
      - apply Z.lxor_eq in E. contradiction.
      - pose proof (Z.log2_nonneg (Z.lxor (codes first) (codes last))). lia. }
    destruct (findSplit_loop_greatest codes (codes first)
                (clz (Z.lxor (codes first) (codes last))) last Hl
                loop_fuel first (last - first))
      as (g & Hg & Hrg & HPg & Hgreat).
    + unfold loop_fuel. lia.
    + split; [lia|]. unfold loop_fuel.
      change (2 ^ Z.of_nat 40) with 1099511627776. lia.
    + lia.
    + lia.
    + rewrite Z.lxor_nilpotent. change (clz 0) with 32. now apply Z.ltb_lt.
    + intros s Hs. lia.
    + intros s t Hs Hst Ht Hlong. apply Z.ltb_lt. apply Z.ltb_lt in Hlong.
      assert (Hfs : first <= s).
      { (* the search only moves forward from [first] *) lia. }
      unfold is_u32 in Hcf.
      pose proof (clz_lxor_sorted (codes first) (codes s) (codes t) ltac:(lia)
                    (Hsorted first s ltac:(lia) ltac:(lia) ltac:(lia))
                    (Hsorted s t ltac:(lia) ltac:(lia) ltac:(lia))).
      lia.
    + exists g. split; [exact Hg|]. split; [lia|].
      rewrite <- !clz_lxor_common_prefix by (try apply Hu32; try assumption; lia).
      split; [now apply Z.ltb_lt|].
      intros s Hs.
      rewrite <- clz_lxor_common_prefix by (try apply Hu32; try assumption; lia).
      specialize (Hgreat s ltac:(lia)). apply Z.ltb_ge in Hgreat. lia.
Qed.

Lemma findSplit_greatest_longer_prefix_witness :
  exists split,
    findSplit (of_list 0 [0; 1; 2; 4]) 0 3 = Some split
    /\ 0 <= split <= 3 - 1
    /\ common_prefix_length 0 4 < common_prefix_length 0 (of_list 0 [0; 1; 2; 4] split)
    /\ (forall s, split < s <= 3 - 1 ->
          ~ common_prefix_length 0 4
            < common_prefix_length 0 (of_list 0 [0; 1; 2; 4] s)).
Proof.
  apply (findSplit_greatest_longer_prefix (of_list 0 [0; 1; 2; 4]) 0 3).
  - lia.
  - lia.
  - lia.
  - intros s Hs.
    assert (Hc : s = 0 \/ s = 1 \/ s = 2 \/ s = 3) by lia.
    destruct Hc as [->|[->|[->| ->]]]; closed_arith.
  - intros s t Hs Hst Ht.
    assert (Hc : s = 0 \/ s = 1 \/ s = 2 \/ s = 3) by lia.
    assert (Hd : t = 0 \/ t = 1 \/ t = 2 \/ t = 3) by lia.
    destruct Hc as [->|[->|[->| ->]]]; destruct Hd as [->|[->|[->| ->]]];
      solve [lia | closed_arith].
  - closed_arith.
Defined.

(** ** Tree traversal: what holds along the search *)

Section TraverseInvariant.

Variable a : traverse_args.
Variable me : traverse_particle.
Variable Inv : traverse_state -> Prop.

Hypothesis visit_keeps : forall tree pos r_cutsq node p st,
    Inv st -> Inv (visit_candidate a me tree pos r_cutsq node p st).

Lemma particle_loop_keeps count tree pos r_cutsq node :
  forall p st, Inv st -> Inv (particle_loop count a me tree pos r_cutsq node p st).
Proof.
  induction count as [|c IH]; intros p st H; simpl; [assumption|].
  apply IH, visit_keeps, H.
Qed.

Lemma node_loop_keeps fuel tree pos r_cut r_cutsq :
  forall cur st st',
    Inv st ->
    node_loop fuel a me tree pos r_cut r_cutsq cur st = Some st' -> Inv st'.
Proof.
  induction fuel as [|f IH]; intros cur st st' H E; cbn [node_loop] in E;
    [discriminate|].
  destruct (cur <? num_nodes tree).
  - destruct (overlaps _ _ _ _).
    + eapply IH; [|exact E]. now apply particle_loop_keeps.
    + eapply IH; eassumption.
  - now inversion E; subst.
Qed.

Lemma image_loop_keeps count tree r_cut r_cutsq :
  forall img st st',
    Inv st -> image_loop count a me tree r_cut r_cutsq img st = Some st' -> Inv st'.
Proof.
  induction count as [|c IH]; intros img st st' H E; cbn [image_loop] in E.
  - now inversion E; subst.
  - destruct (node_loop _ _ _ _ _ _ _ _ _) as [st1|] eqn:E1; [|discriminate].
    eapply IH; [|exact E]. eapply node_loop_keeps; eassumption.
Qed.

Lemma pair_type_loop_keeps count :
  forall t st st',
    Inv st -> pair_type_loop count a me t st = Some st' -> Inv st'.
Proof.
  induction count as [|c IH]; intros t st st' H E; cbn [pair_type_loop] in E.
  - now inversion E; subst.
  - destruct (image_loop _ _ _ _ _ _ _ _) as [st1|] eqn:E1; [|discriminate].
    eapply IH; [|exact E]. eapply image_loop_keeps; eassumption.
Qed.

End TraverseInvariant.

Lemma excluded_spec a me j body_j :
  excluded a me j body_j = true <->
  (my_pidx me = j
   \/ (filter_body a = true /\ body_i me <> 0xffffffff /\ body_i me = wrap32 body_j)).
Proof.
  unfold excluded.
  destruct (filter_body a); simpl.
  - destruct (Z.eqb_spec (body_i me) 4294967295) as [Es|Es]; simpl.
    + rewrite Z.eqb_eq. split; [now left|]. intros [H|(_ & H & _)]; [assumption|].
      contradiction.
    + rewrite Bool.orb_true_iff, !Z.eqb_eq. split.
      * intros [H|H]; [now left|right; now repeat split].
      * intros [H|(_ & _ & H)]; [now left|now right].
  - rewrite Z.eqb_eq. split; [now left|]. intros [H|(H & _)]; [assumption|discriminate].
Qed.

Lemma visit_candidate_cases a me t pos r_cutsq node p st :
  visit_candidate a me t pos r_cutsq node p st
  = if excluded a me (candidate_j a t node p) (candidate_body a t node p) then st
    else record_neighbor a me r_cutsq (candidate_dr2 a t pos node p)
           (candidate_j a t node p) st.
Proof.
  unfold visit_candidate, candidate_j, candidate_body, candidate_dr2, candidate_slot.
  cbv zeta. now destruct (excluded _ _ _ _).
Qed.

(** C1 (as amended). A candidate [j] of a leaf is excluded exactly when
    [j] is the thread's own particle, whatever the periodic image the search
    is run from, or when body filtering is on, the body of the thread's
    particle is not the sentinel [0xffffffff] and [j] has the same body; an
    excluded candidate changes nothing, and every candidate that is not
    excluded and lies within the cutoff is counted. *)
Theorem traverse_exclusion_rule :
  forall (a : traverse_args) (me : traverse_particle) (t : AABBTreeGPU)
         (cur_image : Z) (r_cutsq : Scalar) (node p : Z) (st : traverse_state),
    let pos := image_position a me cur_image in
    let j := candidate_j a t node p in
    let body_j := candidate_body a t node p in
    (excluded a me j body_j = true <->
       (my_pidx me = j
        \/ (filter_body a = true /\ body_i me <> 0xffffffff
            /\ body_i me = wrap32 body_j)))
    /\ (excluded a me j body_j = true ->
          visit_candidate a me t pos r_cutsq node p st = st)
    /\ (excluded a me j body_j = false ->
          Qleb (candidate_dr2 a t pos node p) r_cutsq = true ->
          n_neigh_i (visit_candidate a me t pos r_cutsq node p st)
          = wrap32 (n_neigh_i st + 1)).
Proof.
  intros a me t cur_image r_cutsq node p st pos j body_j.
  split; [apply excluded_spec|]. split.
  - intros E. rewrite visit_candidate_cases. fold j body_j. now rewrite E.
  - intros E Hd. rewrite visit_candidate_cases. fold j body_j. rewrite E.
    unfold record_neighbor. now rewrite Hd.
Qed.

Lemma traverse_exclusion_rule_witness :
  n_neigh_i (visit_candidate demo_args (load_particle demo_args 0)
               (mk_AABBTreeGPU 1 0)
               (image_position demo_args (load_particle demo_args 0) 1)
               (9 # 4) 0 1 (mk_traverse_state 1 []))
  = wrap32 (1 + 1).
Proof.
  apply (traverse_exclusion_rule demo_args (load_particle demo_args 0)
           (mk_AABBTreeGPU 1 0) 1 (9 # 4) 0 1 (mk_traverse_state 1 []));
    vm_compute; reflexivity.
Defined.

(** C1, as first stated, with the self test confined to the primary image:
    in the scene above, particle 0 searches from image 1 and meets itself
    within the cutoff; the rule confined to the primary image keeps the
    candidate, the kernel excludes it and counts nothing. *)
Lemma self_excluded_in_every_image :
  let me := load_particle demo_args 0 in
  let t := mk_AABBTreeGPU 1 0 in
  let pos := image_position demo_args me 1 in
  candidate_j demo_args t 0 0 = my_pidx me
  /\ Qleb (candidate_dr2 demo_args t pos 0 0) (9 # 4) = true
  /\ excluded_primary_only demo_args me 1 (candidate_j demo_args t 0 0)
       (candidate_body demo_args t 0 0) = false
  /\ excluded demo_args me (candidate_j demo_args t 0 0)
       (candidate_body demo_args t 0 0) = true
  /\ visit_candidate demo_args me t pos (9 # 4) 0 0 (mk_traverse_state 0 [])
     = mk_traverse_state 0 [].
Proof. vm_compute. repeat split. Qed.

Lemma visit_candidate_no_self a me t pos r_cutsq node p st :
  no_self_store me st -> no_self_store me (visit_candidate a me t pos r_cutsq node p st).
Proof.
  intros H. rewrite visit_candidate_cases.
  destruct (excluded _ _ _ _) eqn:E; [assumption|].
  assert (Hne : my_pidx me <> candidate_j a t node p).
  { intros Heq. apply Bool.not_true_iff_false in E. apply E, excluded_spec. now left. }
  unfold record_neighbor. destruct (Qleb _ _); [|assumption].
  destruct (n_neigh_i st <? _); [|exact H].
  intros slot j Hin. simpl in Hin. apply in_app_or in Hin.
  destruct Hin as [Hin|[Hin|[]]]; [now apply (H slot)|].
  inversion Hin; subst. congruence.
Qed.

(** C10. Whatever the type of the tree and the periodic image, primary or
    not, a candidate that is the thread's own particle is skipped, and no
    store into the neighbour list of particle [i] ever writes [i]. *)
Theorem traverse_never_lists_self :
  forall (a : traverse_args) (idx : Z) (ops : list traverse_op),
    gpu_nlist_traverse_tree_kernel a idx = Some ops ->
    let me := load_particle a idx in
    (forall cur_pair_type cur_image r_cutsq node p st,
        candidate_j a (d_aabb_trees a cur_pair_type) node p = my_pidx me ->
        visit_candidate a me (d_aabb_trees a cur_pair_type)
          (image_position a me cur_image) r_cutsq node p st = st)
    /\ (forall slot j, In (St_nlist slot j) ops -> j <> my_pidx me).
Proof.
  intros a idx ops E me. split.
  - intros ty img r_cutsq node p st Hj. rewrite visit_candidate_cases.
    replace (excluded a me _ _) with true; [reflexivity|].
    symmetry. apply excluded_spec. now left.
  - unfold gpu_nlist_traverse_tree_kernel in E. fold me in E.
    destruct (ta_N a <=? idx).
    + inversion E; subst. intros slot j [].
    + destruct (pair_type_loop _ _ _ _ _) as [st|] eqn:Eloop; [|discriminate].
      inversion E; subst. clear E.
      assert (Hst : no_self_store me st).
      { eapply (pair_type_loop_keeps a me (no_self_store me)); [| |exact Eloop].
        - intros. now apply visit_candidate_no_self.
        - intros slot j []. }
      intros slot j Hin. apply in_app_or in Hin. destruct Hin as [Hin|Hin].
      * now apply (Hst slot).
      * simpl in Hin. destruct Hin as [Hin|[Hin|Hin]]; try discriminate.
        match type of Hin with
        | In _ (if ?c then _ else _) => destruct c
        end; simpl in Hin; [destruct Hin as [Hin|[]]; discriminate|destruct Hin].
Qed.

Lemma traverse_never_lists_self_witness :
  1 <> my_pidx (load_particle demo_args 0).
Proof.
  refine (proj2 (traverse_never_lists_self demo_args 0
                   [St_nlist 0 1; St_n_neigh 0 2;
                    St_last_updated_pos 0 (point4 0 0 0 0);
                    AtomicMax_conditions 0 2] _) 0 1 _).
  - vm_compute. reflexivity.
  - left. reflexivity.
Defined.

(** ** Tree traversal: capacity, count and overflow *)

Lemma wrap32_add_sub head n : is_u32 n -> wrap32 (wrap32 (head + n) - head) = n.
Proof.
  intros Hn. unfold wrap32. rewrite Zminus_mod_idemp_l.
  replace (head + n - head) with n by lia. now apply Z.mod_small.
Qed.

Section TraverseCapacity.

Variable a : traverse_args.
Variable me : traverse_particle.

Let cap : Z := s_Nmax a (type_i me).
Let head : Z := nlist_head_i me.

Local Abbreviation capped := (capped_run head cap).
Local Abbreviation capped_opt := (capped_run_opt head cap).

Lemma record_neighbor_capped r_cutsq dr2 j st st' :
  capped st st' ->
  capped (record_neighbor a me r_cutsq dr2 j st)
             (record_neighbor (uncapped a) me r_cutsq dr2 j st').
Proof.
  intros H. pose proof H as (Hn & Hu & Hops & Hall).
  unfold record_neighbor, capped_run.
  destruct (Qleb dr2 r_cutsq); [|exact H].
  change (s_Nmax (uncapped a) (type_i me)) with (2 ^ 32).
  fold cap head. cbn [n_neigh_i ts_ops].
  replace (n_neigh_i st' <? 2 ^ 32) with true
    by (symmetry; apply Z.ltb_lt; apply Hu).
  rewrite Hn. split; [reflexivity|]. split; [apply wrap32_range|]. split.
  - rewrite filter_app. cbn [filter below_capacity].
    rewrite wrap32_add_sub by assumption.
    destruct (n_neigh_i st' <? cap); rewrite Hops; [reflexivity|].
    now rewrite app_nil_r.
  - apply Forall_app. split; [assumption|]. constructor; [exact I|constructor].
Qed.

Lemma visit_candidate_capped t pos r_cutsq node p st st' :
  capped st st' ->
  capped (visit_candidate a me t pos r_cutsq node p st)
             (visit_candidate (uncapped a) me t pos r_cutsq node p st').
Proof.
  intros H. rewrite !visit_candidate_cases.
  change (excluded (uncapped a) me (candidate_j (uncapped a) t node p)
            (candidate_body (uncapped a) t node p))
    with (excluded a me (candidate_j a t node p) (candidate_body a t node p)).
  destruct (excluded _ _ _ _); [assumption|].
  now apply record_neighbor_capped.
Qed.

Lemma particle_loop_capped count t pos r_cutsq node :
  forall p st st',
    capped st st' ->
    capped (particle_loop count a me t pos r_cutsq node p st)
               (particle_loop count (uncapped a) me t pos r_cutsq node p st').
Proof.
  induction count as [|c IH]; intros p st st' H; cbn [particle_loop];
    [assumption|].
  apply IH. now apply visit_candidate_capped.
Qed.

Lemma node_loop_capped fuel t pos r_cut r_cutsq :
  forall cur st st',
    capped st st' ->
    capped_opt (node_loop fuel a me t pos r_cut r_cutsq cur st)
                   (node_loop fuel (uncapped a) me t pos r_cut r_cutsq cur st').
Proof.
  induction fuel as [|f IH]; intros cur st st' H; cbn [node_loop]; [exact I|].
  change (d_aabb_node_bounds (uncapped a)) with (d_aabb_node_bounds a).
  destruct (cur <? num_nodes t); [|exact H].
  destruct (overlaps _ _ _ _).
  - apply IH. now apply particle_loop_capped.
  - now apply IH.
Qed.

Lemma image_loop_capped count t r_cut r_cutsq :
  forall img st st',
    capped st st' ->
    capped_opt (image_loop count a me t r_cut r_cutsq img st)
                   (image_loop count (uncapped a) me t r_cut r_cutsq img st').
Proof.
  induction count as [|c IH]; intros img st st' H; cbn [image_loop]; [exact H|].
  change (d_image_list (uncapped a)) with (d_image_list a).
  pose proof (node_loop_capped (S (Z.to_nat (num_nodes t))) t
                (add3 (make_scalar3 (s4_x (postype_i me)) (s4_y (postype_i me))
                         (s4_z (postype_i me))) (d_image_list a img))
                r_cut r_cutsq 0 st st' H) as Hn.
  destruct (node_loop _ a _ _ _ _ _ _ _) as [s1|];
    destruct (node_loop _ (uncapped a) _ _ _ _ _ _ _) as [s1'|];
    try contradiction; [|exact I].
  now apply IH.
Qed.

Lemma pair_type_loop_capped count :
  forall ty st st',
    capped st st' ->
    capped_opt (pair_type_loop count a me ty st)
                   (pair_type_loop count (uncapped a) me ty st').
Proof.
  induction count as [|c IH]; intros ty st st' H; cbn [pair_type_loop]; [exact H|].
  change (s_r_list (uncapped a)) with (s_r_list a).
  change (ta_ntypes (uncapped a)) with (ta_ntypes a).
  change (d_aabb_trees (uncapped a)) with (d_aabb_trees a).
  change (nimages (uncapped a)) with (nimages a).
  set (rc := s_r_list a (typpair_idx (ta_ntypes a) (type_i me) ty)).
  pose proof (image_loop_capped (Z.to_nat (nimages a)) (d_aabb_trees a ty)
                rc (rc * rc)%Q 0 st st' H) as Hn.
  destruct (image_loop _ a _ _ _ _ _ _) as [s1|];
    destruct (image_loop _ (uncapped a) _ _ _ _ _ _) as [s1'|];
    try contradiction; [|exact I].
  now apply IH.
Qed.

(** The search of a tree whose skip fields move the cursor forward ends. *)
Lemma node_loop_returns t pos r_cut r_cutsq :
  skips_ok a t ->
  forall fuel cur st,
    0 <= cur -> Z.max 0 (num_nodes t - cur) < Z.of_nat fuel ->
    exists st', node_loop fuel a me t pos r_cut r_cutsq cur st = Some st'.
Proof.
  intros [Hnn Hskip]. unfold is_u32 in Hnn.
  induction fuel as [|f IH]; intros cur st Hcur Hfuel; cbn [node_loop].
  - lia.
  - destruct (Z.ltb_spec cur (num_nodes t)) as [Hlt|Hge]; [|now eexists].
    destruct (Hskip cur ltac:(lia)) as [Hs0 Hs1]. cbv zeta in Hs0, Hs1.
    destruct (overlaps _ _ _ _).
    + apply IH; rewrite wrap32_small; lia.
    + apply IH; rewrite (wrap32_small (cur + _)) by lia;
        rewrite wrap32_small; lia.
Qed.

Lemma image_loop_returns t r_cut r_cutsq :
  skips_ok a t ->
  forall count img st,
    exists st', image_loop count a me t r_cut r_cutsq img st = Some st'.
Proof.
  intros Hok. induction count as [|c IH]; intros img st; cbn [image_loop];
    [now eexists|].
  destruct (node_loop_returns t
              (add3 (make_scalar3 (s4_x (postype_i me)) (s4_y (postype_i me))
                       (s4_z (postype_i me))) (d_image_list a img))
              r_cut r_cutsq Hok (S (Z.to_nat (num_nodes t))) 0 st)
    as [s1 E1]; [lia| |].
  - destruct Hok as [Hnn _]. unfold is_u32 in Hnn. lia.
  - rewrite E1. apply IH.
Qed.

Lemma pair_type_loop_returns :
  forall count ty st,
    0 <= ty ->
    (forall k, ty <= k < ty + Z.of_nat count -> skips_ok a (d_aabb_trees a k)) ->
    exists st', pair_type_loop count a me ty st = Some st'.
Proof.
  induction count as [|c IH]; intros ty st Hty Hok; cbn [pair_type_loop];
    [now eexists|].
  set (rc := s_r_list a (typpair_idx (ta_ntypes a) (type_i me) ty)).
  destruct (image_loop_returns (d_aabb_trees a ty) rc (rc * rc)%Q
              (Hok ty ltac:(lia)) (Z.to_nat (nimages a)) 0 st) as [s1 E1].
  rewrite E1. apply IH; [lia|]. intros k Hk. apply Hok. lia.
Qed.

End TraverseCapacity.

Lemma Forall_filter_keeps {A} (P : A -> Prop) (f : A -> bool) (l : list A) :
  Forall P l -> Forall P (filter f l).
Proof.
  induction 1 as [|x l Hx Hl IH]; simpl; [constructor|].
  destruct (f x); [now constructor|assumption].
Qed.

Lemma apply_nlist_stores o ops :
  Forall is_nlist_store ops ->
  d_n_neigh (apply_ops o ops) = d_n_neigh o
  /\ d_last_updated_pos (apply_ops o ops) = d_last_updated_pos o
  /\ d_conditions (apply_ops o ops) = d_conditions o.
Proof.
  intros H. revert o. induction H as [|op ops Hop Hops IH]; intros o;
    [now repeat split|].
  unfold apply_ops in *. cbn [fold_left].
  destruct op; try contradiction.
  destruct (IH (apply_op o (St_nlist slot j))) as (E1 & E2 & E3).
  rewrite E1, E2, E3. now repeat split.
Qed.

(** C2. For the particle of a thread, with [cap = Nmax[type_i]]: a
    neighbour within the cutoff is stored in the list only while the running
    count is below [cap], and the count goes up all the same, so that the
    final count is the one of the run with unbounded capacity and the
    stores are those of that run that fall below [cap]; the count and the
    position are then stored in every case, and when the count exceeds
    [cap] the counter of the type is raised by [atomicMax] to at least the
    count. *)
Theorem traverse_capacity_and_overflow :
  forall (a : traverse_args) (idx : Z),
    0 <= idx < ta_N a ->
    (forall k, 0 <= k < ta_ntypes a -> skips_ok a (d_aabb_trees a k)) ->
    let me := load_particle a idx in
    let cap := s_Nmax a (type_i me) in
    (forall r_cutsq dr2 j st,
        Qleb dr2 r_cutsq = true ->
        record_neighbor a me r_cutsq dr2 j st
        = mk_traverse_state (wrap32 (n_neigh_i st + 1))
            (if n_neigh_i st <? cap
             then ts_ops st ++ [St_nlist (wrap32 (nlist_head_i me + n_neigh_i st)) j]
             else ts_ops st))
    /\ exists st st',
        pair_type_loop (Z.to_nat (ta_ntypes a)) a me 0 (mk_traverse_state 0 [])
        = Some st
        /\ pair_type_loop (Z.to_nat (ta_ntypes a)) (uncapped a) me 0
             (mk_traverse_state 0 []) = Some st'
        /\ n_neigh_i st = n_neigh_i st'
        /\ ts_ops st = filter (below_capacity (nlist_head_i me) cap) (ts_ops st')
        /\ Forall is_nlist_store (ts_ops st')
        /\ let ops :=
             ts_ops st
             ++ [St_n_neigh (my_pidx me) (n_neigh_i st);
                 St_last_updated_pos (my_pidx me) (postype_i me)]
             ++ (if cap <=? n_neigh_i st
                 then [AtomicMax_conditions (type_i me) (n_neigh_i st)] else []) in
           gpu_nlist_traverse_tree_kernel a idx = Some ops
           /\ forall o,
               d_n_neigh (apply_ops o ops) (my_pidx me) = n_neigh_i st
               /\ d_last_updated_pos (apply_ops o ops) (my_pidx me) = postype_i me
               /\ d_conditions (apply_ops o ops) (type_i me)
                  = (if cap <=? n_neigh_i st
                     then Z.max (d_conditions o (type_i me)) (n_neigh_i st)
                     else d_conditions o (type_i me))
               /\ (cap < n_neigh_i st ->
                   n_neigh_i st <= d_conditions (apply_ops o ops) (type_i me)).
Proof.
  intros a idx Hidx Hok me cap. split.
  { intros r_cutsq dr2 j st Hd. unfold record_neighbor. now rewrite Hd. }
  destruct (pair_type_loop_returns a me (Z.to_nat (ta_ntypes a)) 0
              (mk_traverse_state 0 []) ltac:(lia)) as [st Est].
  { intros k Hk. apply Hok. lia. }
  assert (H0 : capped_run (nlist_head_i me) cap (mk_traverse_state 0 [])
                 (mk_traverse_state 0 [])).
  { unfold capped_run, is_u32. simpl. repeat split; try lia. constructor. }
  pose proof (pair_type_loop_capped a me (Z.to_nat (ta_ntypes a)) 0 _ _ H0) as Hsim.
  fold me in Hsim. rewrite Est in Hsim.
  destruct (pair_type_loop _ (uncapped a) _ _ _) as [st'|] eqn:Est';
    [|contradiction].
  destruct Hsim as (Hn & Hu & Hops & Hall).
  exists st, st'. repeat (split; [assumption || reflexivity|]).
  cbv zeta. split.
  { unfold gpu_nlist_traverse_tree_kernel. fold me.
    replace (ta_N a <=? idx) with false by (symmetry; apply Z.leb_gt; lia).
    now rewrite Est. }
  intros o.
  assert (Hst : Forall is_nlist_store (ts_ops st))
    by (rewrite Hops; now apply Forall_filter_keeps).
  destruct (apply_nlist_stores o (ts_ops st) Hst) as (E1 & E2 & E3).
  unfold apply_ops in *. rewrite !fold_left_app. cbn [fold_left apply_op].
  set (o1 := fold_left apply_op (ts_ops st) o) in *.
  assert (Hcond :
    d_conditions
      (fold_left apply_op
         (if cap <=? n_neigh_i st
          then [AtomicMax_conditions (type_i me) (n_neigh_i st)] else [])
         (mk_traverse_out (d_nlist o1) (upd (d_n_neigh o1) (my_pidx me) (n_neigh_i st))
            (upd (d_last_updated_pos o1) (my_pidx me) (postype_i me))
            (d_conditions o1))) (type_i me)
    = if cap <=? n_neigh_i st
      then Z.max (d_conditions o (type_i me)) (n_neigh_i st)
      else d_conditions o (type_i me)).
  { destruct (cap <=? n_neigh_i st); cbn [fold_left apply_op d_conditions];
      [rewrite upd_same|]; now rewrite E3. }
  split; [|split; [|split]].
  - destruct (cap <=? n_neigh_i st); cbn [fold_left apply_op d_n_neigh];
      apply upd_same.
  - destruct (cap <=? n_neigh_i st);
      cbn [fold_left apply_op d_last_updated_pos]; apply upd_same.
  - exact Hcond.
  - intros Hover.
    assert (Hle : (cap <=? n_neigh_i st) = true) by (apply Z.leb_le; lia).
    apply Z.le_trans with (Z.max (d_conditions o (type_i me)) (n_neigh_i st));
      [apply Z.le_max_r|].
    apply Z.eq_le_incl. symmetry. etransitivity; [exact Hcond|].
    now rewrite Hle.
Qed.

Lemma traverse_capacity_and_overflow_witness :
  exists st,
    pair_type_loop (Z.to_nat (ta_ntypes demo_args)) demo_args
      (load_particle demo_args 0) 0 (mk_traverse_state 0 []) = Some st
    /\ n_neigh_i st = 2.
Proof.
  assert (H1 : 0 <= 0 < ta_N demo_args) by closed_arith.
  assert (H2 : forall k, 0 <= k < ta_ntypes demo_args ->
                         skips_ok demo_args (d_aabb_trees demo_args k)).
  { intros k Hk. change (ta_ntypes demo_args) with 1 in Hk.
    assert (k = 0) by lia. subst k. split; [closed_arith|].
    intros k Hk'. change (num_nodes (d_aabb_trees demo_args 0)) with 1 in Hk'.
    assert (k = 0) by lia. subst k. closed_arith. }
  destruct (proj2 (traverse_capacity_and_overflow demo_args 0 H1 H2))
    as (st & st' & E & _).
  exists st. split; [exact E|].
  vm_compute in E. inversion E. reflexivity.
Defined.

(** ** Morton encoder: the bins at the upper boundary *)

Lemma out_of_cell_spec f :
  out_of_cell f = true <-> (f < 0 \/ 100001 # 100000 <= f)%Q.
Proof.
  unfold out_of_cell, Qltb, Qleb.
  rewrite Bool.orb_true_iff, Bool.negb_true_iff, Qle_bool_iff.
  split; intros [H|H]; try (now right).
  - left. apply Qnot_le_lt. intros Hle. apply Qle_bool_iff in Hle. congruence.
  - left. apply Bool.not_true_iff_false. intros Hle. apply Qle_bool_iff in Hle.
    now apply Qlt_not_le in H.
Qed.

(** A particle is dropped (the thread stores nothing) exactly when one of
    its fractional coordinates is outside [[0, 1.00001)]. *)
Lemma morton_kernel_drops d_pos map_p N type_head periodic makeFraction idx :
  0 <= idx < N ->
  let f := makeFraction (make_scalar3 (s4_x (d_pos idx)) (s4_y (d_pos idx))
                           (s4_z (d_pos idx))) in
  gpu_nlist_morton_codes_kernel d_pos map_p N type_head periodic makeFraction idx = []
  <-> (out_of_cell (s3_x f) = true \/ out_of_cell (s3_y f) = true
       \/ out_of_cell (s3_z f) = true).
Proof.
  intros Hidx f. unfold gpu_nlist_morton_codes_kernel.
  replace (N <=? idx) with false by (symmetry; apply Z.leb_gt; lia).
  destruct periodic as [[px py] pz]. fold f.
  destruct (out_of_cell (s3_x f)), (out_of_cell (s3_y f)), (out_of_cell (s3_z f));
    simpl; split; intros H; try reflexivity; try discriminate; auto.
  destruct H as [H|[H|H]]; discriminate.
Qed.

Lemma morton_kernel_drops_witness :
  gpu_nlist_morton_codes_kernel (of_list (point4 0 0 0 0) [point4 2 0 0 0])
    (of_list 0 [0]) 1 (of_list 0 [0]) (true, true, true) (fun pos => pos) 0 = [].
Proof.
  apply (morton_kernel_drops (of_list (point4 0 0 0 0) [point4 2 0 0 0])
           (of_list 0 [0]) 1 (of_list 0 [0]) (true, true, true) (fun pos => pos) 0).
  - closed_arith.
  - left. reflexivity.
Defined.

(** On a periodic axis a coordinate in [[1, 1.00001)] goes to bin 0. *)
Lemma morton_bin_periodic_wraps :
  morton_bin 1%Q true = 0 /\ morton_bin (100000999 # 100000000) true = 0.
Proof. split; reflexivity. Qed.

Lemma scalar_to_uint_bins (f : Q) :
  scalar_to_uint (f * inject_Z MORTON_CODE_N_BINS)
  = wrap32 (Z.quot (Qnum f * 1024) (Zpos (Qden f))).
Proof.
  unfold scalar_to_uint. destruct f as [n d]. simpl Qnum. simpl Qden.
  now rewrite Pos.mul_1_r.
Qed.

Lemma morton_bin_in_bins f periodic :
  (0 <= f)%Q -> (f < 1)%Q -> 0 <= morton_bin f periodic <= 1023.
Proof.
  intros H0 H1. unfold morton_bin. rewrite scalar_to_uint_bins.
  destruct f as [n d]. unfold Qle, Qlt in *. simpl in *.
  assert (Hq : 0 <= Z.quot (n * 1024) (Zpos d) <= 1023).
  { rewrite Z.quot_div_nonneg by lia. split.
    - apply Z.div_pos; lia.
    - apply Z.lt_succ_r. apply Z.div_lt_upper_bound; lia. }
  rewrite wrap32_small by lia.
  destruct (Z.eqb_spec (Z.quot (n * 1024) (Zpos d)) MORTON_CODE_N_BINS) as [E|E];
    [unfold MORTON_CODE_N_BINS in E; lia|].
  simpl. lia.
Qed.

(** A coordinate in [[0, 1)] falls into one of the bins 0 to 1023, on a
    periodic axis or not. *)
Lemma morton_bin_inside f periodic :
  (0 <= f)%Q -> (f < 1)%Q -> 0 <= morton_bin f periodic <= 1023.
Proof. exact (morton_bin_in_bins f periodic). Qed.

Lemma morton_bin_inside_witness : 0 <= morton_bin (1023 # 1024) false <= 1023.
Proof.
  apply (morton_bin_inside (1023 # 1024) false); closed_arith.
Defined.

(** A coordinate in [[1, 1.00001)] is kept; its bin is 1024, which a
    periodic axis wraps to 0 and an axis that is not periodic leaves as
    it is. *)
Lemma morton_bin_upper_boundary f :
  (1 <= f)%Q -> (f < 100001 # 100000)%Q ->
  out_of_cell f = false /\ morton_bin f true = 0 /\ morton_bin f false = 1024.
Proof.
  intros H1 H2.
  assert (Hin : out_of_cell f = false).
  { apply Bool.not_true_iff_false. intros Hout. apply out_of_cell_spec in Hout.
    destruct Hout as [Hneg|Hbig].
    - apply (Qlt_not_le _ _ Hneg). apply Qle_trans with 1%Q; [discriminate|exact H1].
    - now apply (Qlt_not_le _ _ H2). }
  assert (Hbin : scalar_to_uint (f * inject_Z MORTON_CODE_N_BINS) = 1024).
  { rewrite scalar_to_uint_bins.
    destruct f as [n d]. unfold Qle, Qlt in *. simpl in *.
    assert (Hq : Z.quot (n * 1024) (Zpos d) = 1024).
    { rewrite Z.quot_div_nonneg by lia.
      symmetry. apply Z.div_unique with (n * 1024 - 1024 * Zpos d); lia. }
    rewrite Hq. reflexivity. }
  unfold morton_bin. rewrite Hbin. split; [exact Hin|]. split; reflexivity.
Qed.

Lemma morton_bin_upper_boundary_witness :
  morton_bin (100000999 # 100000000) true = 0
  /\ morton_bin (100000999 # 100000000) false = 1024.
Proof.
  apply (morton_bin_upper_boundary (100000999 # 100000000)); closed_arith.
Defined.

(** C3. At the failing input: fractional coordinate 1 on an axis that is
    not periodic.  The particle is kept, its bin is 1024 and not 1023,
    which [expandBits] does not take as a 10-bit value: on the x axis the
    shifted bits leave the 32-bit word and the code is the one of bin 0, on
    the y and z axes the code has a bit above the thirty of a Morton
    code. *)
Theorem morton_bin_nonperiodic_upper_boundary :
  out_of_cell 1%Q = false
  /\ morton_bin 1%Q false = 1024
  /\ morton_bin 1%Q true = 0
  /\ expandBits 1024 = 2 ^ 30
  /\ morton_code 1024 512 512 = morton_code 0 512 512
  /\ morton_code 512 1024 512 = 2 ^ 31 + morton_code 512 0 512
  /\ morton_code 512 512 1024 = 2 ^ 30 + morton_code 512 512 0
  /\ gpu_nlist_morton_codes_kernel
       (of_list (point4 0 0 0 0) [make_scalar4 1%Q (1 # 2) (1 # 2) 0])
       (of_list 0 [0]) 1 (of_list 0 [0]) (false, false, false) (fun pos => pos) 0
     = [W_morton_codes 0 (morton_code 1024 512 512); W_leaf_particles 0 0].
Proof. vm_compute. repeat split. Qed.

(** ** Types without particles *)

(** With between 1 and [L] particles a type has one leaf and no internal
    node, and the walk over the types steps over it. *)
Lemma internal_node_count_single_leaf L count :
  0 < count <= L -> count + L < 2 ^ 32 ->
  leaf_count L count = 1 /\ internal_node_count L count = 0.
Proof.
  intros Hc Hl. unfold leaf_count, internal_node_count.
  rewrite (wrap32_small (count + L)) by lia.
  rewrite (wrap32_small (count + L - 1)) by lia.
  assert (E : (count + L - 1) / L = 1).
  { replace (count + L - 1) with (count - 1 + 1 * L) by lia.
    rewrite Z.div_add by lia. rewrite Z.div_small by lia. reflexivity. }
  rewrite E. split; reflexivity.
Qed.

Lemma internal_node_count_single_leaf_witness :
  leaf_count 4 3 = 1 /\ internal_node_count 4 3 = 0.
Proof.
  apply (internal_node_count_single_leaf 4 3); closed_arith.
Defined.

(** Whatever the leaf capacity, the expression wraps on an empty type. *)
Lemma internal_node_count_empty_type L :
  0 < L < 2 ^ 32 -> leaf_count L 0 = 0 /\ internal_node_count L 0 = 2 ^ 32 - 1.
Proof.
  intros HL. unfold leaf_count, internal_node_count.
  rewrite (wrap32_small (0 + L)) by lia.
  rewrite (wrap32_small (0 + L - 1)) by lia.
  rewrite (Z.div_small (0 + L - 1) L) by lia.
  split; reflexivity.
Qed.

(** C9. At the failing input: a type without particles.  The merger gives
    it no leaf, but the count of its internal nodes, [(0 + L - 1)/L - 1],
    wraps around to [2^32 - 1]; with the counts [[0; 12]] and [L = 4] the
    walk over the types then hands internal node 0 to the empty type 0 with
    the leaf range [[0, 2^32 - 1]], and the launch has one working thread
    for the two internal nodes of type 1; the merger, for its part, gives
    leaf 0 to type 1. *)
Theorem empty_type_internal_node_count_wraps :
  leaf_count 4 0 = 0
  /\ internal_node_count 4 0 = 2 ^ 32 - 1
  /\ type_walk 2 (of_list 0 [0; 12]) 4 0 0 0 = (0, 0, 2 ^ 32 - 1, 0)
  /\ wrap32 (leaf_count 4 0 + leaf_count 4 12 - 2) = 1
  /\ internal_node_count 4 12 = 2
  /\ merge_particles_segment (of_list 0 [0; 12]) (of_list 0 [0; 0])
       (of_list 0 [0; 0]) 4 2 12 3 0 = Some (1, 0, 4).
Proof. vm_compute. repeat split. Qed.

(** ** Hierarchy generation on equal codes *)

(** C4. At the failing input: one type, [L = 4], 16 particles in four
    leaves whose codes are [4; 4; 4; 5].  The three threads return, but the
    stores are not those of a tree: the parent of leaf 3 is stored by
    threads 0 and 2, no thread stores the parent of internal node 1, and
    leaf 3 is a child of both node 0 and node 2. *)
Theorem hierarchy_on_equal_codes_is_not_a_tree :
  let launch :=
    gpu_nlist_gen_hierarchy (of_list 0 [4; 4; 4; 5]) (of_list 0 [16]) 4 1 4 4 in
  launch
  = [(0, Some [W_node_parents 2 0; W_leaf_parents 3 0; W_node_parents 0 0;
               W_node_children 0 4 7]);
     (1, Some [W_leaf_parents 0 1; W_leaf_parents 1 1; W_node_children 1 1 3]);
     (2, Some [W_leaf_parents 2 2; W_leaf_parents 3 2; W_node_children 2 5 7]);
     (3, Some [])]
  /\ writers (stores_leaf_parent 3) launch = [0; 2]
  /\ writers (stores_node_parent 1) launch = []
  /\ delta (of_list 0 [4; 4; 4; 5]) 1 2 0 3 = 30
  /\ delta (of_list 0 [4; 4; 4; 5]) 1 3 0 3 = 31.
Proof. vm_compute. repeat split. Qed.

(** On distinct codes the same launch stores a tree: each leaf and each
    internal node but the root has its parent stored by one thread. *)
Lemma hierarchy_on_distinct_codes :
  let launch :=
    gpu_nlist_gen_hierarchy (of_list 0 [0; 1; 2; 4]) (of_list 0 [16]) 4 1 4 4 in
  launch
  = [(0, Some [W_node_parents 2 0; W_leaf_parents 3 0; W_node_parents 0 0;
               W_node_children 0 4 7]);
     (1, Some [W_leaf_parents 0 1; W_leaf_parents 1 1; W_node_children 1 1 3]);
     (2, Some [W_node_parents 1 2; W_leaf_parents 2 2; W_node_children 2 2 5]);
     (3, Some [])]
  /\ map (fun s => writers (stores_leaf_parent s) launch) [0; 1; 2; 3]
     = [[1]; [1]; [2]; [0]]
  /\ map (fun s => writers (stores_node_parent s) launch) [0; 1; 2]
     = [[0]; [2]; [0]].
Proof. vm_compute. repeat split. Qed.

(** ** Bounding-box bubbling on [chain_tree] *)

Lemma bubble_turn_first t sh l :
  d_node_locks sh (cur_parent l) <> 1 ->
  bubble_turn t sh l
  = (mk_bubble_shared
       (upd (d_node_locks sh) (cur_parent l)
          (wrap32 (d_node_locks sh (cur_parent l) + 1)))
       (d_tree_aabbs sh), None).
Proof.
  intros H. unfold bubble_turn.
  destruct (Z.eqb_spec (d_node_locks sh (cur_parent l)) 1); [contradiction|].
  reflexivity.
Qed.

Section Chain.

Variable t : bubble_tree.
Hypothesis t_nleafs : bt_nleafs t = 4.
Hypothesis t_children1 : d_node_children t 1 = (1, 3).
Hypothesis t_parent1 : d_node_parents t 1 = 2.

Variable d_tree_aabbs0 : mem Scalar4.

(** The second thread to reach node 1 merges the boxes of leaves 0 and 1
    into slots 10 and 11, and leaves the loop: the child it would go on
    with, [1 << 1], is equal to the parent of node 1, which is node 2. *)
Lemma bubble_turn_second_at_node1 idx sh :
  idx = 0 \/ idx = 1 ->
  d_node_locks sh 1 = 1 ->
  let r := bubble_turn t sh (chain_local d_tree_aabbs0 idx 1) in
  snd r = None
  /\ d_node_locks (fst r) = upd (d_node_locks sh) 1 2
  /\ (forall k, k <> 10 -> k <> 11 ->
                d_tree_aabbs (fst r) k = d_tree_aabbs sh k).
Proof.
  intros Hidx Hlock. unfold bubble_turn.
  cbn [cur_parent cur_child cur_upper cur_lower chain_local].
  rewrite Hlock, t_children1, t_nleafs.
  change (1 =? 1) with true. cbv iota.
  change (wrap32 (Z.shiftl 1 1)) with 2. change (Z.shiftr 2 1) with 1.
  rewrite t_parent1. change (negb (2 =? 2)) with false. cbv iota.
  cbn [fst snd d_node_locks d_tree_aabbs].
  split; [reflexivity|]. split; [reflexivity|].
  intros k H10 H11. change (2 * (4 + 1) + 1) with 11. change (2 * (4 + 1)) with 10.
  rewrite !upd_other by assumption. reflexivity.
Qed.

Lemma chain_invariant_step c c' :
  chain_invariant d_tree_aabbs0 c -> bubble_step t c c' ->
  chain_invariant d_tree_aabbs0 c'.
Proof.
  intros (b0 & b1 & b2 & b3 & Hth & H0 & H1 & H2 & Hbox) Hstep.
  inversion Hstep as [c0 i l Hnth]; subst c0 c'. clear Hstep.
  rewrite Hth in Hnth. unfold chain_invariant.
  cbn [bc_shared bc_threads]. rewrite Hth.
  destruct i as [|[|[|[|i]]]]; cbn [nth_error] in Hnth.
  - (* the thread of leaf 0, at node 1 *)
    destruct b0; [discriminate|]. injection Hnth as <-.
    destruct b1.
    + destruct (bubble_turn_second_at_node1 0 (bc_shared c) (or_introl eq_refl))
        as (Hs & Hl & Ha); [rewrite H1; reflexivity|].
      cbv zeta in Hs, Hl, Ha. rewrite Hs, Hl.
      exists true, true, b2, b3. cbn [set_nth].
      split; [reflexivity|]. rewrite upd_same, !upd_other by lia.
      repeat (split; [assumption || reflexivity|]).
      intros k Hk. rewrite Ha by lia. now apply Hbox.
    + rewrite bubble_turn_first
        by (cbn [cur_parent chain_local]; rewrite H1; discriminate).
      cbn [fst snd cur_parent chain_local d_node_locks d_tree_aabbs set_nth].
      exists true, false, b2, b3.
      split; [reflexivity|]. rewrite upd_same, !upd_other by lia.
      rewrite H1. repeat (split; [assumption || reflexivity|]). exact Hbox.
  - (* the thread of leaf 1, at node 1 *)
    destruct b1; [discriminate|]. injection Hnth as <-.
    destruct b0.
    + destruct (bubble_turn_second_at_node1 1 (bc_shared c) (or_intror eq_refl))
        as (Hs & Hl & Ha); [rewrite H1; reflexivity|].
      cbv zeta in Hs, Hl, Ha. rewrite Hs, Hl.
      exists true, true, b2, b3. cbn [set_nth].
      split; [reflexivity|]. rewrite upd_same, !upd_other by lia.
      repeat (split; [assumption || reflexivity|]).
      intros k Hk. rewrite Ha by lia. now apply Hbox.
    + rewrite bubble_turn_first
        by (cbn [cur_parent chain_local]; rewrite H1; discriminate).
      cbn [fst snd cur_parent chain_local d_node_locks d_tree_aabbs set_nth].
      exists false, true, b2, b3.
      split; [reflexivity|]. rewrite upd_same, !upd_other by lia.
      rewrite H1. repeat (split; [assumption || reflexivity|]). exact Hbox.
  - (* the thread of leaf 2, first and only one at node 2 *)
    destruct b2; [discriminate|]. injection Hnth as <-.
    rewrite bubble_turn_first
      by (cbn [cur_parent chain_local]; rewrite H2; discriminate).
    cbn [fst snd cur_parent chain_local d_node_locks d_tree_aabbs set_nth].
    exists b0, b1, true, b3.
    split; [reflexivity|]. rewrite upd_same, !upd_other by lia.
    rewrite H2. repeat (split; [assumption || reflexivity|]). exact Hbox.
  - (* the thread of leaf 3, first and only one at the root *)
    destruct b3; [discriminate|]. injection Hnth as <-.
    rewrite bubble_turn_first
      by (cbn [cur_parent chain_local]; rewrite H0; discriminate).
    cbn [fst snd cur_parent chain_local d_node_locks d_tree_aabbs set_nth].
    exists b0, b1, b2, true.
    split; [reflexivity|]. rewrite upd_same, !upd_other by lia.
    rewrite H0. repeat (split; [assumption || reflexivity|]). exact Hbox.
  - (* the threads past the leaves have left at once *)
    destruct i as [|[|[|[|i]]]]; cbn [nth_error] in Hnth; try discriminate.
    destruct i; discriminate.
Qed.

Lemma chain_invariant_reachable c0 c :
  chain_invariant d_tree_aabbs0 c0 ->
  clos_refl_trans bubble_config (bubble_step t) c0 c ->
  chain_invariant d_tree_aabbs0 c.
Proof.
  intros H0 Hrun. apply clos_rt_rtn1 in Hrun.
  induction Hrun as [|c1 c2 Hstep Hrun IH]; [assumption|].
  eapply chain_invariant_step; eassumption.
Qed.

End Chain.

Lemma chain_tree_shape :
  bt_nleafs chain_tree = 4
  /\ bt_ntypes chain_tree = 1
  /\ map (d_leaf_parents chain_tree) [0; 1; 2; 3] = [1; 1; 2; 0]
  /\ map (d_node_parents chain_tree) [0; 1; 2] = [0; 2; 0]
  /\ map (d_node_children chain_tree) [0; 1; 2] = [(4, 7); (1, 3); (2, 5)].
Proof. vm_compute. repeat split. Qed.

Lemma chain_tree_nleafs : bt_nleafs chain_tree = 4.
Proof. reflexivity. Qed.

Lemma chain_tree_children1 : d_node_children chain_tree 1 = (1, 3).
Proof. vm_compute. reflexivity. Qed.

Lemma chain_tree_parent1 : d_node_parents chain_tree 1 = 2.
Proof. vm_compute. reflexivity. Qed.

Lemma chain_invariant_initially d_node_locks0 d_tree_aabbs0 :
  chain_invariant d_tree_aabbs0
    (gpu_nlist_bubble_aabbs chain_tree d_node_locks0 d_tree_aabbs0 4).
Proof.
  exists false, false, false, false. repeat split.
Qed.

(** C5. At the failing input: the hierarchy generated for four leaves with
    the codes [0; 1; 2; 4].  Whatever the order in which the threads take
    their turns, once all have left the locks of the root, of node 1 and of
    node 2 hold 1, 2 and 1, and the boxes of node 2 and of the root are the
    ones the launch started with: the walk from node 1 stops below node 2,
    since the loop compares the parent of node 1, which is 2, with the
    shifted child [1 << 1]. *)
Theorem bubble_walk_stops_below_root :
  forall (d_node_locks0 : mem Z) (d_tree_aabbs0 : mem Scalar4) (c : bubble_config),
    clos_refl_trans bubble_config (bubble_step chain_tree)
      (gpu_nlist_bubble_aabbs chain_tree d_node_locks0 d_tree_aabbs0 4) c ->
    bubble_finished c ->
    d_node_locks (bc_shared c) 0 = 1
    /\ d_node_locks (bc_shared c) 1 = 2
    /\ d_node_locks (bc_shared c) 2 = 1
    /\ (forall k, k = 8 \/ k = 9 \/ k = 12 \/ k = 13 ->
          d_tree_aabbs (bc_shared c) k = d_tree_aabbs0 k).
Proof.
  intros locks0 aabbs0 c Hrun Hfin.
  pose proof (chain_invariant_reachable chain_tree chain_tree_nleafs
                chain_tree_children1 chain_tree_parent1 aabbs0 _ c
                (chain_invariant_initially locks0 aabbs0) Hrun) as Hinv.
  destruct Hinv as (b0 & b1 & b2 & b3 & Hth & H0 & H1 & H2 & Hbox).
  unfold bubble_finished in Hfin. rewrite Hth in Hfin.
  inversion Hfin as [|x0 q0 E0 F0]; subst.
  inversion F0 as [|x1 q1 E1 F1]; subst.
  inversion F1 as [|x2 q2 E2 F2]; subst.
  inversion F2 as [|x3 q3 E3 F3]; subst.
  destruct b0; [|discriminate]. destruct b1; [|discriminate].
  destruct b2; [|discriminate]. destruct b3; [|discriminate].
  rewrite H0, H1, H2. repeat split. exact Hbox.
Qed.

(** The launch does finish: the threads taken in the order 0, 1, 2, 3. *)
Lemma bubble_chain_run d_node_locks0 d_tree_aabbs0 :
  exists c,
    clos_refl_trans bubble_config (bubble_step chain_tree)
      (gpu_nlist_bubble_aabbs chain_tree d_node_locks0 d_tree_aabbs0 4) c
    /\ bubble_finished c.
Proof.
  set (c0 := gpu_nlist_bubble_aabbs chain_tree d_node_locks0 d_tree_aabbs0 4).
  assert (Hturn : forall c i l,
             nth_error (bc_threads c) i = Some (Some l) ->
             clos_refl_trans bubble_config (bubble_step chain_tree) c
               (mk_bubble_config (fst (bubble_turn chain_tree (bc_shared c) l))
                  (set_nth i (bc_threads c)
                     (snd (bubble_turn chain_tree (bc_shared c) l))))).
  { intros c i l H. apply rt_step. now constructor. }
  eexists. split.
  - eapply rt_trans; [apply (Hturn c0 0%nat); reflexivity|].
    eapply rt_trans; [eapply (Hturn _ 1%nat); reflexivity|].
    eapply rt_trans; [eapply (Hturn _ 2%nat); reflexivity|].
    eapply (Hturn _ 3%nat); reflexivity.
  - unfold bubble_finished. repeat constructor.
Qed.

Lemma bubble_walk_stops_below_root_witness :
  exists c,
    bubble_finished c
    /\ d_node_locks (bc_shared c) 0 = 1
    /\ d_node_locks (bc_shared c) 1 = 2
    /\ d_node_locks (bc_shared c) 2 = 1.
Proof.
  destruct (bubble_chain_run (fun _ => 7) (fun _ => point4 0 0 0 0))
    as (c & Hrun & Hfin).
  exists c. split; [exact Hfin|].
  destruct (bubble_walk_stops_below_root _ _ c Hrun Hfin) as (H0 & H1 & H2 & _).
  repeat split; assumption.
Defined.

(** ** The search for the split stays inside its range *)

Lemma findSplit_loop_in_range d_morton_codes first_code common_prefix first last :
  last < 2 ^ 31 ->
  forall (fuel : nat) (split step : Z),
    (1 <= fuel)%nat -> 1 <= step <= 2 ^ Z.of_nat fuel -> step <= last ->
    0 <= first -> first <= split < last ->
    exists g,
      findSplit_loop fuel d_morton_codes first_code common_prefix last split step
      = Some g
      /\ first <= g < last.
Proof.
  intros Hl. induction fuel as [|n IH]; intros split step Hfuel Hstep Hsl Hf Hsplit;
    [lia|].
  cbn [findSplit_loop].
  rewrite (wrap32_small (step + 1)) by lia.
  rewrite Z.shiftr_div_pow2 by lia. change (2 ^ 1) with 2.
  set (step' := (step + 1) / 2).
  assert (Hstep' : 1 <= step' /\ step' <= step)
    by (unfold step'; split; Z.div_mod_to_equations; lia).
  assert (Hpow : step' <= 2 ^ Z.of_nat n).
  { rewrite Nat2Z.inj_succ, Z.pow_succ_r in Hstep by lia.
    unfold step'. Z.div_mod_to_equations. lia. }
  rewrite (wrap32_small (split + step')) by lia.
  set (split' := if split + step' <? last
                 then if common_prefix <?
                         clz (Z.lxor first_code (d_morton_codes (split + step')))
                      then split + step' else split
                 else split).
  assert (Hr : first <= split' < last).
  { unfold split'. destruct (Z.ltb_spec (split + step') last); [|lia].
    destruct (common_prefix <? _); lia. }
  destruct (Z.ltb_spec 1 step') as [Hgo|Hstop].
  - assert (Hn : (1 <= n)%nat) by (destruct n; [simpl in Hpow; lia|lia]).
    apply IH; lia.
  - exists split'. split; [reflexivity|exact Hr].
Qed.

Lemma findSplit_bounds :
  forall (d_morton_codes : mem Z) (first last : Z),
    0 <= first -> first < last -> last < 2 ^ 31 ->
    exists split,
      findSplit d_morton_codes first last = Some split
      /\ first <= split <= last - 1.
Proof.
  intros codes first last Hf Hfl Hl. unfold findSplit.
  destruct (codes first =? codes last).
  - eexists. split; [reflexivity|].
    rewrite wrap32_small by lia. rewrite Z.shiftr_div_pow2 by lia.
    change (2 ^ 1) with 2. Z.div_mod_to_equations. lia.
  - rewrite wrap32_small by lia.
    destruct (findSplit_loop_in_range codes (codes first)
                (clz (Z.lxor (codes first) (codes last))) first last Hl
                loop_fuel first (last - first)) as (g & Hg & Hr).
    + unfold loop_fuel. lia.
    + split; [lia|]. unfold loop_fuel.
      change (2 ^ Z.of_nat 40) with 1099511627776. lia.
    + lia.
    + lia.
    + lia.
    + exists g. split; [exact Hg|lia].
Qed.

(** Whatever the codes, sorted or not, equal or not: on a range
    [first < last] the search returns, and the split it returns lies in
    [[first, last - 1]], so that both children [split] and [split + 1] are
    leaves or nodes of the range. *)
Theorem findSplit_in_range :
  forall (d_morton_codes : mem Z) (first last : Z),
    0 <= first -> first < last -> last < 2 ^ 31 ->
    exists split,
      findSplit d_morton_codes first last = Some split
      /\ first <= split <= last - 1.
Proof. exact findSplit_bounds. Qed.

Lemma findSplit_in_range_witness :
  exists split,
    findSplit (of_list 0 [9; 3; 3; 7; 1]) 1 4 = Some split /\ 1 <= split <= 4 - 1.
Proof.
  apply (findSplit_in_range (of_list 0 [9; 3; 3; 7; 1]) 1 4); lia.
Defined.

(** ** The range of an internal node stays inside its segment *)

Lemma lxor_u32 a b : is_u32 a -> is_u32 b -> is_u32 (Z.lxor a b).
Proof.
  unfold is_u32. intros Ha Hb.
  assert (H0 : 0 <= Z.lxor a b) by (apply Z.lxor_nonneg; lia).
  split; [exact H0|].
  destruct (Z.eq_dec (Z.lxor a b) 0) as [E|E]; [rewrite E; lia|].
  apply Z.log2_lt_cancel. rewrite Z.log2_pow2 by lia.
  destruct (Z.eq_dec a 0) as [->|Ha0].
  - rewrite Z.lxor_0_l. rewrite Z.lxor_0_l in E. apply Z.log2_lt_pow2; lia.
  - destruct (Z.eq_dec b 0) as [->|Hb0].
    + rewrite Z.lxor_0_r. apply Z.log2_lt_pow2; lia.
    + eapply Z.le_lt_trans; [apply Z.log2_lxor; lia|].
      apply Z.max_lub_lt; apply Z.log2_lt_pow2; lia.
Qed.

Lemma clz_nonneg x : is_u32 x -> 0 <= clz x.
Proof.
  unfold is_u32, clz. intros Hx. destruct (Z.eqb_spec x 0); [lia|].
  assert (Z.log2 x < 32) by (apply Z.log2_lt_pow2; lia). lia.
Qed.

Section DetermineRange.

Variable d_morton_codes : mem Z.
Variables min_idx max_idx idx : Z.

Hypothesis min_nonneg : 0 <= min_idx.
Hypothesis idx_inside : min_idx <= idx <= max_idx.
Hypothesis max_small : max_idx < 2 ^ 30.
Hypothesis codes_u32 : forall s, min_idx <= s <= max_idx -> is_u32 (d_morton_codes s).

Lemma delta_lower_bound j :
  is_u32 j -> -1 <= delta d_morton_codes idx j min_idx max_idx.
Proof.
  intros Hj. unfold delta. rewrite !wrap32_small by lia.
  destruct (Z.ltb_spec max_idx j); [simpl; lia|].
  destruct (Z.ltb_spec j min_idx); [simpl; lia|]. simpl.
  assert (Hi : is_u32 idx) by (unfold is_u32; lia).
  destruct (d_morton_codes idx =? d_morton_codes j).
  - pose proof (clz_nonneg _ (lxor_u32 _ _ Hi Hj)). lia.
  - pose proof (clz_nonneg _ (lxor_u32 _ _ (codes_u32 idx idx_inside)
                                (codes_u32 j ltac:(lia)))). lia.
Qed.

(** A prefix above [-1] is only found at an index of the segment. *)
Lemma delta_above_inside z m :
  -1 <= m -> - 2 ^ 31 <= z < 2 ^ 32 ->
  m < delta d_morton_codes idx (wrap32 z) min_idx max_idx ->
  min_idx <= z <= max_idx.
Proof.
  intros Hm Hz Hd. unfold delta in Hd. rewrite !(wrap32_small min_idx) in Hd by lia.
  rewrite (wrap32_small max_idx) in Hd by lia.
  destruct (Z.ltb_spec max_idx (wrap32 z)); [simpl in Hd; lia|].
  destruct (Z.ltb_spec (wrap32 z) min_idx); [simpl in Hd; lia|].
  destruct (Z_lt_le_dec z 0) as [Hneg|Hpos].
  - assert (E : wrap32 z = z + 2 ^ 32).
    { unfold wrap32. symmetry. apply Z.mod_unique with (-1); lia. }
    lia.
  - rewrite wrap32_small in * by lia. lia.
Qed.

Variables d min_prefix : Z.
Hypothesis d_sign : d = 1 \/ d = -1.
Hypothesis min_prefix_lower : -1 <= min_prefix.

Lemma lmax_loop_returns :
  forall (fuel : nat) (lmax : Z),
    (1 <= fuel)%nat -> 2 <= lmax < 2 ^ 31 ->
    max_idx - min_idx < lmax * 2 ^ (Z.of_nat fuel - 1) ->
    exists r,
      lmax_loop fuel d_morton_codes min_idx max_idx idx d min_prefix lmax = Some r
      /\ 2 <= r < 2 ^ 31.
Proof.
  induction fuel as [|n IH]; intros lmax Hfuel Hl Hbig; [lia|].
  cbn [lmax_loop]. rewrite (wrap32_small idx) by lia.
  destruct (Z.ltb_spec min_prefix
              (delta d_morton_codes idx (wrap32 (idx + d * lmax)) min_idx max_idx))
    as [Hgo|Hstop]; [|now exists lmax].
  apply delta_above_inside in Hgo; [|assumption|destruct d_sign; subst d; lia].
  assert (Hle : lmax <= max_idx - min_idx) by (destruct d_sign; subst d; lia).
  assert (E : to_int32 (Z.shiftl lmax 1) = 2 * lmax).
  { rewrite Z.shiftl_mul_pow2 by lia. change (2 ^ 1) with 2.
    unfold to_int32. rewrite wrap32_small by lia.
    destruct (Z.ltb_spec (lmax * 2) (2 ^ 31)); lia. }
  rewrite E.
  assert (Hn : (1 <= n)%nat).
  { destruct n; [|lia]. simpl in Hbig. lia. }
  apply IH; [assumption|lia|].
  replace (Z.of_nat (S n) - 1) with (Z.succ (Z.of_nat n - 1)) in Hbig by lia.
  rewrite Z.pow_succ_r in Hbig by lia. lia.
Qed.

Lemma len_loop_returns :
  forall (fuel : nat) (len step : Z),
    (1 <= fuel)%nat -> 0 <= step <= 2 ^ Z.of_nat fuel -> step <= 2 ^ 31 ->
    0 <= len -> min_idx <= idx + d * len <= max_idx ->
    exists r,
      len_loop fuel d_morton_codes min_idx max_idx idx d min_prefix len step = Some r
      /\ 0 <= r /\ min_idx <= idx + d * r <= max_idx.
Proof.
  induction fuel as [|n IH]; intros len step Hfuel Hstep Hs31 Hlen Hin; [lia|].
  cbn [len_loop]. rewrite (wrap32_small idx) by lia.
  rewrite Z.shiftr_div_pow2 by lia. change (2 ^ 1) with 2.
  set (step' := step / 2).
  assert (Hstep' : 0 <= step' /\ step' <= 2 ^ 30 /\ 2 * step' <= step)
    by (unfold step'; repeat split; Z.div_mod_to_equations; lia).
  assert (Hpow : step' <= 2 ^ Z.of_nat n).
  { rewrite Nat2Z.inj_succ, Z.pow_succ_r in Hstep by lia. lia. }
  assert (Hlen30 : len < 2 ^ 30) by (destruct d_sign; subst d; lia).
  rewrite (wrap32_small (len + step')) by lia.
  set (len' := if min_prefix <?
                  delta d_morton_codes idx (wrap32 (idx + d * (len + step')))
                    min_idx max_idx
               then len + step' else len).
  assert (Hinv : 0 <= len' /\ min_idx <= idx + d * len' <= max_idx).
  { unfold len'.
    destruct (Z.ltb_spec min_prefix
                (delta d_morton_codes idx (wrap32 (idx + d * (len + step')))
                   min_idx max_idx)) as [Hgo|Hstop]; [|lia].
    apply delta_above_inside in Hgo; [lia|assumption|].
    destruct d_sign; subst d; lia. }
  destruct (Z.ltb_spec 1 step') as [Hmore|Hdone].
  - assert (Hn : (1 <= n)%nat) by (destruct n; [simpl in Hpow; lia|lia]).
    apply IH; lia.
  - exists len'. split; [reflexivity|exact Hinv].
Qed.

End DetermineRange.

Lemma determineRange_bounds :
  forall (d_morton_codes : mem Z) (min_idx max_idx idx : Z),
    0 <= min_idx -> min_idx <= idx <= max_idx -> max_idx < 2 ^ 30 ->
    (forall s, min_idx <= s <= max_idx -> is_u32 (d_morton_codes s)) ->
    exists first last,
      determineRange d_morton_codes min_idx max_idx idx = Some (first, last)
      /\ min_idx <= first /\ first <= idx /\ idx <= last /\ last <= max_idx
      /\ (first = idx \/ last = idx).
Proof.
  intros codes lo hi idx Hlo Hidx Hhi Hu32. unfold determineRange.
  rewrite !(wrap32_small idx) by lia.
  set (d := if 0 <? delta codes idx (wrap32 (idx + 1)) lo hi
                    - delta codes idx (wrap32 (idx - 1)) lo hi then 1 else -1).
  assert (Hd : d = 1 \/ d = -1) by (unfold d; destruct (0 <? _); auto).
  set (m := delta codes idx (wrap32 (idx - d)) lo hi).
  assert (Hm : -1 <= m)
    by (apply delta_lower_bound; try assumption; apply wrap32_range).
  destruct (lmax_loop_returns codes lo hi idx Hlo Hidx Hhi d m Hd Hm loop_fuel 2)
    as (lmax & El & Hl).
  { unfold loop_fuel. lia. }
  { lia. }
  { unfold loop_fuel. change (2 ^ (Z.of_nat 40 - 1)) with 549755813888. lia. }
  rewrite El. rewrite (wrap32_small lmax) by lia.
  destruct (len_loop_returns codes lo hi idx Hlo Hidx Hhi d m Hd Hm loop_fuel 0 lmax)
    as (len & Elen & Hlen0 & Hlen).
  { unfold loop_fuel. lia. }
  { unfold loop_fuel. change (2 ^ Z.of_nat 40) with 1099511627776. lia. }
  { lia. }
  { lia. }
  { destruct Hd; subst d; lia. }
  rewrite Elen. destruct Hd as [E|E]; rewrite E in *.
  - change (0 <? 1) with true. cbv iota.
    exists idx, (wrap32 (idx + len)). rewrite wrap32_small by lia.
    split; [reflexivity|]. repeat split; lia.
  - change (0 <? -1) with false. cbv iota.
    exists (wrap32 (idx - len)), idx. rewrite wrap32_small by lia.
    split; [reflexivity|]. repeat split; lia.
Qed.

(** For a leaf index [idx] of a segment [[min_idx, max_idx]] of 32-bit codes,
    sorted or not, [determineRange] returns, and the range it returns has
    [idx] as one of its ends and lies inside the segment. *)
Theorem determineRange_in_segment :
  forall (d_morton_codes : mem Z) (min_idx max_idx idx : Z),
    0 <= min_idx -> min_idx <= idx <= max_idx -> max_idx < 2 ^ 30 ->
    (forall s, min_idx <= s <= max_idx -> is_u32 (d_morton_codes s)) ->
    exists first last,
      determineRange d_morton_codes min_idx max_idx idx = Some (first, last)
      /\ min_idx <= first /\ first <= idx /\ idx <= last /\ last <= max_idx
      /\ (first = idx \/ last = idx).
Proof. exact determineRange_bounds. Qed.

Lemma determineRange_in_segment_witness :
  exists first last,
    determineRange (of_list 0 [4; 4; 4; 5]) 0 3 2 = Some (first, last)
    /\ 0 <= first /\ first <= 2 /\ 2 <= last /\ last <= 3
    /\ (first = 2 \/ last = 2).
Proof.
  apply (determineRange_in_segment (of_list 0 [4; 4; 4; 5]) 0 3 2); try lia.
  intros s Hs.
  assert (Hc : s = 0 \/ s = 1 \/ s = 2 \/ s = 3) by lia.
  destruct Hc as [->|[->|[->| ->]]]; closed_arith.
Defined.

(** ** The walks over the types *)

Lemma leaf_count_value L count :
  0 < L -> 0 <= count -> count + L < 2 ^ 32 ->
  leaf_count L count = (count + L - 1) / L.
Proof.
  intros HL Hc Hs. unfold leaf_count.
  rewrite (wrap32_small (count + L)) by lia.
  rewrite (wrap32_small (count + L - 1)) by lia.
  apply wrap32_small. split.
  - apply Z.div_pos; lia.
  - apply Z.div_lt_upper_bound; nia.
Qed.

Lemma leaf_count_positive L count :
  0 < L -> 1 <= count -> count + L < 2 ^ 32 ->
  1 <= leaf_count L count /\ internal_node_count L count = leaf_count L count - 1.
Proof.
  intros HL Hc Hs. pose proof (leaf_count_value L count HL ltac:(lia) Hs) as E.
  assert (H1 : 1 <= (count + L - 1) / L) by (apply Z.div_le_lower_bound; lia).
  assert (H2 : (count + L - 1) / L < 2 ^ 32) by (apply Z.div_lt_upper_bound; nia).
  split; [lia|].
  unfold internal_node_count.
  rewrite (wrap32_small (count + L)) by lia.
  rewrite (wrap32_small (count + L - 1)) by lia.
  rewrite wrap32_small by lia. lia.
Qed.

Lemma leaves_before_mono L npt (s t : nat) :
  (s <= t)%nat -> leaves_before L npt s <= leaves_before L npt t.
Proof.
  induction 1 as [|t Hst IH]; [lia|]. cbn [leaves_before].
  pose proof (wrap32_range (wrap32 (wrap32 (npt (Z.of_nat t) + L) - 1) / L)) as Hr.
  fold (leaf_count L (npt (Z.of_nat t))) in Hr. lia.
Qed.

Section TypeWalk.

Variable d_num_per_type : mem Z.
Variable L : Z.
Variable ntypes : nat.
Variable idx : Z.

Hypothesis L_positive : 0 < L.
Hypothesis leaves_small : leaves_before L d_num_per_type ntypes < 2 ^ 32.

Lemma type_walk_from :
  (forall s, (s < ntypes)%nat ->
     1 <= d_num_per_type (Z.of_nat s) /\ d_num_per_type (Z.of_nat s) + L < 2 ^ 32) ->
  idx < leaves_before L d_num_per_type ntypes - Z.of_nat ntypes ->
  forall (remaining c : nat),
    (c + remaining = ntypes)%nat ->
    leaves_before L d_num_per_type c - Z.of_nat c <= idx ->
    0 <= idx ->
    exists t : nat,
      (c <= t < ntypes)%nat
      /\ type_walk remaining d_num_per_type L idx (Z.of_nat c)
           (leaves_before L d_num_per_type c - Z.of_nat c)
         = (Z.of_nat t, leaves_before L d_num_per_type t,
            leaves_before L d_num_per_type (S t) - 1, idx + Z.of_nat t)
      /\ leaves_before L d_num_per_type t - Z.of_nat t <= idx
         < leaves_before L d_num_per_type (S t) - Z.of_nat (S t).
Proof.
  intros Hnpt Hidx.
  assert (Hge : forall c, (c <= ntypes)%nat ->
                          Z.of_nat c <= leaves_before L d_num_per_type c).
  { induction c as [|c IHc]; intros Hc; [simpl; lia|]. cbn [leaves_before].
    destruct (leaf_count_positive L (d_num_per_type (Z.of_nat c)) L_positive)
      as [H1 _]; try (apply Hnpt; lia).
    specialize (IHc ltac:(lia)). lia. }
  induction remaining as [|r IH]; intros c Hc Hlow H0.
  - replace c with ntypes in Hlow by lia. lia.
  - cbn [type_walk]. pose proof (Hge c ltac:(lia)) as Hgc.
    destruct (leaf_count_positive L (d_num_per_type (Z.of_nat c)) L_positive)
      as [H1 E]; try (apply Hnpt; lia).
    pose proof (leaves_before_mono L d_num_per_type (S c) ntypes ltac:(lia)) as Hm.
    cbn [leaves_before] in Hm.
    assert (Emax : wrap32 (leaves_before L d_num_per_type c - Z.of_nat c
                           + internal_node_count L (d_num_per_type (Z.of_nat c)))
                   = leaves_before L d_num_per_type (S c) - Z.of_nat (S c)).
    { cbn [leaves_before]. rewrite E. rewrite wrap32_small by lia. lia. }
    rewrite Emax.
    destruct (Z.ltb_spec idx (leaves_before L d_num_per_type (S c) - Z.of_nat (S c)))
      as [Hin|Hout].
    + exists c. split; [lia|]. split; [|lia].
      cbn [leaves_before] in *.
      rewrite !wrap32_small by lia.
      replace (leaves_before L d_num_per_type c - Z.of_nat c + Z.of_nat c)
        with (leaves_before L d_num_per_type c) by lia.
      replace (leaves_before L d_num_per_type c
               + leaf_count L (d_num_per_type (Z.of_nat c)) - Z.of_nat (S c)
               + Z.of_nat c)
        with (leaves_before L d_num_per_type c
              + leaf_count L (d_num_per_type (Z.of_nat c)) - 1) by lia.
      reflexivity.
    + destruct (IH (S c) ltac:(lia) Hout H0) as (t & Ht & Ew & Hr).
      exists t. split; [lia|]. split; [|exact Hr].
      rewrite <- Ew. f_equal. lia.
Qed.

Lemma merge_type_walk_from d_type_head N :
  Z.of_nat ntypes < 2 ^ 32 ->
  idx < leaves_before L d_num_per_type ntypes ->
  forall (remaining c : nat),
    (c + remaining = S ntypes)%nat ->
    leaves_before L d_num_per_type c <= idx ->
    exists t : nat,
      (c <= t < ntypes)%nat
      /\ merge_type_walk remaining d_num_per_type d_type_head L (Z.of_nat ntypes) idx
           (Z.of_nat c) (leaves_before L d_num_per_type c) (-1) N
         = (leaves_before L d_num_per_type (S t), Z.of_nat t,
            if Z.of_nat t + 1 <? Z.of_nat ntypes
            then d_type_head (Z.of_nat t + 1) else N)
      /\ leaves_before L d_num_per_type t <= idx < leaves_before L d_num_per_type (S t).
Proof.
  intros Hnt Hidx. induction remaining as [|r IH]; intros c Hc Hlow.
  - pose proof (leaves_before_mono L d_num_per_type ntypes c ltac:(lia)). lia.
  - assert (Hcn : (c < ntypes)%nat).
    { destruct (Nat.lt_ge_cases c ntypes) as [H|H]; [exact H|].
      pose proof (leaves_before_mono L d_num_per_type ntypes c H). lia. }
    cbn [merge_type_walk]. change (-1 =? -1) with true.
    replace (Z.of_nat c <? Z.of_nat ntypes) with true
      by (symmetry; apply Z.ltb_lt; lia).
    cbn [andb].
    pose proof (leaves_before_mono L d_num_per_type (S c) ntypes ltac:(lia)) as Hm.
    pose proof (wrap32_range
                  (wrap32 (wrap32 (d_num_per_type (Z.of_nat c) + L) - 1) / L)) as Hr.
    fold (leaf_count L (d_num_per_type (Z.of_nat c))) in Hr.
    pose proof (leaves_before_mono L d_num_per_type 0 c ltac:(lia)) as H0.
    cbn [leaves_before] in Hm, H0.
    assert (Etot : wrap32 (leaves_before L d_num_per_type c
                           + leaf_count L (d_num_per_type (Z.of_nat c)))
                   = leaves_before L d_num_per_type (S c)).
    { cbn [leaves_before]. apply wrap32_small. lia. }
    rewrite Etot.
    destruct (Z.ltb_spec idx (leaves_before L d_num_per_type (S c))) as [Hin|Hout].
    + exists c. split; [lia|]. split; [|lia].
      rewrite (wrap32_small (Z.of_nat c + 1)) by lia.
      destruct r as [|r']; cbn [merge_type_walk]; [reflexivity|].
      replace (Z.of_nat c =? -1) with false by (symmetry; apply Z.eqb_neq; lia).
      reflexivity.
    + destruct (IH (S c) ltac:(lia) Hout) as (t & Ht & Ew & Hrange).
      exists t. split; [lia|]. split; [|exact Hrange].
      rewrite <- Ew. f_equal. lia.
Qed.

End TypeWalk.

Lemma type_walk_bounds :
  forall (d_num_per_type : mem Z) (L : Z) (ntypes : nat) (idx : Z),
    0 < L ->
    (forall s, (s < ntypes)%nat ->
       1 <= d_num_per_type (Z.of_nat s) /\ d_num_per_type (Z.of_nat s) + L < 2 ^ 32) ->
    leaves_before L d_num_per_type ntypes < 2 ^ 32 ->
    0 <= idx < leaves_before L d_num_per_type ntypes - Z.of_nat ntypes ->
    exists t : nat,
      (t < ntypes)%nat
      /\ type_walk ntypes d_num_per_type L idx 0 0
         = (Z.of_nat t, leaves_before L d_num_per_type t,
            leaves_before L d_num_per_type (S t) - 1, idx + Z.of_nat t)
      /\ leaves_before L d_num_per_type t - Z.of_nat t <= idx
         < leaves_before L d_num_per_type (S t) - Z.of_nat (S t).
Proof.
  intros npt L ntypes idx HL Hnpt Hsmall Hidx.
  destruct (type_walk_from npt L ntypes idx HL Hsmall Hnpt ltac:(lia) ntypes 0%nat)
    as (t & Ht & E & Hr); [lia|simpl; lia|lia|].
  exists t. split; [lia|]. split; [exact E|exact Hr].
Qed.

(** When every type has at least one particle, the walk of the hierarchy
    generator hands internal node [idx] to the type [t] whose block of
    internal nodes holds it, with the first and last leaf of that type as
    [origin] and [end], and [idx + t] as the node's place among the
    leaves. *)
Theorem type_walk_locates_internal_node :
  forall (d_num_per_type : mem Z) (L : Z) (ntypes : nat) (idx : Z),
    0 < L ->
    (forall s, (s < ntypes)%nat ->
       1 <= d_num_per_type (Z.of_nat s) /\ d_num_per_type (Z.of_nat s) + L < 2 ^ 32) ->
    leaves_before L d_num_per_type ntypes < 2 ^ 32 ->
    0 <= idx < leaves_before L d_num_per_type ntypes - Z.of_nat ntypes ->
    exists t : nat,
      (t < ntypes)%nat
      /\ type_walk ntypes d_num_per_type L idx 0 0
         = (Z.of_nat t, leaves_before L d_num_per_type t,
            leaves_before L d_num_per_type (S t) - 1, idx + Z.of_nat t)
      /\ leaves_before L d_num_per_type t - Z.of_nat t <= idx
         < leaves_before L d_num_per_type (S t) - Z.of_nat (S t).
Proof. exact type_walk_bounds. Qed.

(** The walk of the leaf merger finds the type of leaf [idx] from the same
    prefix sums, types without particles included, and takes as end of the
    type's particles the head of the next type, or [N] for the last type. *)
Theorem merge_type_walk_locates_leaf :
  forall (d_num_per_type d_type_head : mem Z) (L : Z) (ntypes : nat) (N idx : Z),
    Z.of_nat ntypes < 2 ^ 32 ->
    leaves_before L d_num_per_type ntypes < 2 ^ 32 ->
    0 <= idx < leaves_before L d_num_per_type ntypes ->
    exists t : nat,
      (t < ntypes)%nat
      /\ merge_type_walk (S ntypes) d_num_per_type d_type_head L (Z.of_nat ntypes) idx
           0 0 (-1) N
         = (leaves_before L d_num_per_type (S t), Z.of_nat t,
            if Z.of_nat t + 1 <? Z.of_nat ntypes
            then d_type_head (Z.of_nat t + 1) else N)
      /\ leaves_before L d_num_per_type t <= idx < leaves_before L d_num_per_type (S t).
Proof.
  intros npt th L ntypes N idx Hnt Hsmall Hidx.
  destruct (merge_type_walk_from npt L ntypes idx Hsmall th N Hnt ltac:(lia)
              (S ntypes) 0%nat) as (t & Ht & E & Hr); [lia|simpl; lia|].
  exists t. split; [lia|]. split; [exact E|exact Hr].
Qed.

(** ** The stores of a hierarchy thread stay in the blocks of its type *)

Lemma leaves_before_at_least L npt (ntypes c : nat) :
  0 < L ->
  (forall s, (s < ntypes)%nat ->
     1 <= npt (Z.of_nat s) /\ npt (Z.of_nat s) + L < 2 ^ 32) ->
  (c <= ntypes)%nat -> Z.of_nat c <= leaves_before L npt c.
Proof.
  intros HL Hnpt. induction c as [|c IHc]; intros Hc; [simpl; lia|].
  cbn [leaves_before].
  destruct (leaf_count_positive L (npt (Z.of_nat c)) HL) as [H1 _];
    try (apply Hnpt; lia).
  specialize (IHc ltac:(lia)). lia.
Qed.

Lemma to_int32_small z : 0 <= z < 2 ^ 31 -> to_int32 z = z.
Proof.
  intros Hz. unfold to_int32. rewrite wrap32_small by lia.
  destruct (Z.ltb_spec z (2 ^ 31)); lia.
Qed.

Lemma findSplit_single d_morton_codes first :
  0 <= first < 2 ^ 31 -> findSplit d_morton_codes first first = Some first.
Proof.
  intros Hf. unfold findSplit. rewrite Z.eqb_refl.
  rewrite wrap32_small by lia. rewrite Z.shiftr_div_pow2 by lia.
  change (2 ^ 1) with 2. f_equal. Z.div_mod_to_equations. lia.
Qed.


(** ** The box of a leaf *)

Lemma Qltb_true a b : Qltb a b = true -> (a < b)%Q.
Proof.
  unfold Qltb. intros H. apply Bool.negb_true_iff in H.
  apply Qnot_le_lt. intros Hle. apply Qle_bool_iff in Hle. congruence.
Qed.

Lemma Qltb_false a b : Qltb a b = false -> (b <= a)%Q.
Proof.
  unfold Qltb. intros H. apply Bool.negb_false_iff in H. now apply Qle_bool_iff.
Qed.

Lemma box_within_refl lower upper : box_within lower upper lower upper.
Proof. unfold box_within. repeat split; apply Qle_refl. Qed.

Lemma box_within_trans l1 u1 l2 u2 l3 u3 :
  box_within l1 u1 l2 u2 -> box_within l2 u2 l3 u3 -> box_within l1 u1 l3 u3.
Proof.
  unfold box_within. intros (A1 & A2 & A3 & A4 & A5 & A6) (B1 & B2 & B3 & B4 & B5 & B6).
  repeat split; eapply Qle_trans; eassumption.
Qed.

Lemma box_contains_within l u l' u' p :
  box_contains l u p -> box_within l u l' u' -> box_contains l' u' p.
Proof.
  unfold box_contains, box_within.
  intros ((A1 & A2) & (A3 & A4) & (A5 & A6)) (B1 & B2 & B3 & B4 & B5 & B6).
  repeat split; eapply Qle_trans; eassumption.
Qed.

Lemma merge_point_grows lower upper cur_pos :
  let r := merge_point lower upper cur_pos in
  box_within lower upper (fst r) (snd r)
  /\ box_contains (fst r) (snd r) cur_pos
  /\ s4_w (fst r) = s4_w lower + 1
  /\ s4_w (snd r) = s4_w upper.
Proof.
  cbv zeta. unfold merge_point, box_within, box_contains.
  destruct lower as [lx ly lz lw], upper as [ux uy uz uw], cur_pos as [cx cy cz cw].
  cbn [s4_x s4_y s4_z s4_w set_x set_y set_z set_w fst snd].
  destruct (Qltb cx lx) eqn:Elx;
    [apply Qltb_true, Qlt_le_weak in Elx|apply Qltb_false in Elx];
    cbn [s4_x s4_y s4_z s4_w set_x set_y set_z set_w fst snd];
    (destruct (Qltb ux cx) eqn:Eux;
     [apply Qltb_true, Qlt_le_weak in Eux|apply Qltb_false in Eux]);
    cbn [s4_x s4_y s4_z s4_w set_x set_y set_z set_w fst snd];
    (destruct (Qltb cy ly) eqn:Ely;
     [apply Qltb_true, Qlt_le_weak in Ely|apply Qltb_false in Ely]);
    cbn [s4_x s4_y s4_z s4_w set_x set_y set_z set_w fst snd];
    (destruct (Qltb uy cy) eqn:Euy;
     [apply Qltb_true, Qlt_le_weak in Euy|apply Qltb_false in Euy]);
    cbn [s4_x s4_y s4_z s4_w set_x set_y set_z set_w fst snd];
    (destruct (Qltb cz lz) eqn:Elz;
     [apply Qltb_true, Qlt_le_weak in Elz|apply Qltb_false in Elz]);
    cbn [s4_x s4_y s4_z s4_w set_x set_y set_z set_w fst snd];
    (destruct (Qltb uz cz) eqn:Euz;
     [apply Qltb_true, Qlt_le_weak in Euz|apply Qltb_false in Euz]);
    cbn [s4_x s4_y s4_z s4_w set_x set_y set_z set_w fst snd];
    repeat split; try assumption; try apply Qle_refl.
Qed.

Lemma merge_leaf_loop_grows d_pos d_leaf_particles :
  forall (count : nat) (cur_p : Z) (lower upper : Scalar4),
    let r := merge_leaf_loop count d_pos d_leaf_particles cur_p lower upper in
    box_within lower upper (fst r) (snd r)
    /\ (forall p, cur_p <= p < cur_p + Z.of_nat count ->
                  box_contains (fst r) (snd r) (d_pos (d_leaf_particles p)))
    /\ s4_w (fst r) = s4_w lower + Z.of_nat count
    /\ s4_w (snd r) = s4_w upper.
Proof.
  induction count as [|c IH]; intros cur_p lower upper; cbv zeta.
  - cbn [merge_leaf_loop fst snd]. split; [apply box_within_refl|].
    split; [intros p Hp; lia|]. split; [simpl; lia|reflexivity].
  - cbn [merge_leaf_loop].
    destruct (merge_point_grows lower upper (d_pos (d_leaf_particles cur_p)))
      as (Hg & Hc & Hw1 & Hw2).
    destruct (merge_point lower upper (d_pos (d_leaf_particles cur_p))) as [l1 u1].
    cbn [fst snd] in Hg, Hc, Hw1, Hw2.
    destruct (IH (cur_p + 1) l1 u1) as (Hg' & Hc' & Hw1' & Hw2'). cbv zeta in *.
    split; [eapply box_within_trans; eassumption|].
    split; [|split; [rewrite Hw1', Hw1; lia|congruence]].
    intros p Hp. destruct (Z.eq_dec p cur_p) as [->|Hne].
    + eapply box_contains_within; eassumption.
    + apply Hc'. lia.
Qed.

Lemma merge_leaf_box_bounds :
  forall (d_pos : mem Scalar4) (d_leaf_particles : mem Z) (start_idx end_idx : Z),
    0 <= start_idx -> start_idx + 1 < 2 ^ 32 ->
    let box := merge_leaf_box d_pos d_leaf_particles start_idx end_idx in
    (forall p, start_idx <= p < Z.max (start_idx + 1) end_idx ->
               box_contains (fst box) (snd box) (d_pos (d_leaf_particles p)))
    /\ s4_w (fst box) = Z.max 1 (end_idx - start_idx)
    /\ s4_w (snd box) = 0.
Proof.
  intros d_pos lp start_idx end_idx H0 H1. cbv zeta. unfold merge_leaf_box.
  rewrite wrap32_small by lia.
  destruct (merge_leaf_loop_grows d_pos lp (Z.to_nat (end_idx - (start_idx + 1)))
              (start_idx + 1)
              (set_w (set_w (d_pos (lp start_idx)) 0) 1)
              (set_w (d_pos (lp start_idx)) 0)) as (Hg & Hc & Hw1 & Hw2).
  cbv zeta in *. split; [|split].
  - intros p Hp. destruct (Z.eq_dec p start_idx) as [->|Hne].
    + eapply box_contains_within; [|exact Hg].
      unfold box_contains. cbn [s4_x s4_y s4_z set_w].
      repeat split; apply Qle_refl.
    + apply Hc. lia.
  - rewrite Hw1. cbn [s4_w set_w]. lia.
  - rewrite Hw2. reflexivity.
Qed.

(** For a leaf [idx] whose particles the kernel locates at
    [start_idx, end_idx), the thread stores the upper corner, the lower
    corner and the code of the first particle; the box contains the
    position of each particle of the leaf, [upper] carries 0 and [lower]
    the number of these particles, which is 1 when the range is empty, as
    the first particle is always read. *)
Theorem merge_kernel_leaf_box :
  forall (d_morton_codes : mem Z) (d_pos : mem Scalar4) (d_num_per_type : mem Z)
         (ntypes : Z) (d_leaf_particles d_leaf_offset d_type_head : mem Z)
         (L N nleafs idx leaf_type start_idx end_idx : Z),
    merge_particles_segment d_num_per_type d_leaf_offset d_type_head L ntypes N
      nleafs idx = Some (leaf_type, start_idx, end_idx) ->
    start_idx + 1 < 2 ^ 32 ->
    exists lower upper,
      gpu_nlist_merge_particles_kernel d_morton_codes d_pos d_num_per_type ntypes
        d_leaf_particles d_leaf_offset d_type_head L N nleafs idx
      = [W_leaf_aabbs (wrap32 (2 * idx)) upper;
         W_leaf_aabbs (wrap32 (wrap32 (2 * idx) + 1)) lower;
         W_morton_codes_red idx (d_morton_codes start_idx)]
      /\ (forall p, start_idx <= p < Z.max (start_idx + 1) end_idx ->
                    box_contains lower upper (d_pos (d_leaf_particles p)))
      /\ s4_w lower = Z.max 1 (end_idx - start_idx)
      /\ s4_w upper = 0.
Proof.
  intros codes d_pos npt ntypes lp lo th L N nleafs idx t start_idx end_idx Eseg Hs.
  assert (H0 : 0 <= start_idx).
  { unfold merge_particles_segment in Eseg.
    destruct (nleafs <=? idx); [discriminate|].
    destruct (merge_type_walk _ _ _ _ _ _ _ _ _ _) as [[tb lt] mx].
    injection Eseg as _ E _. rewrite <- E. apply wrap32_range. }
  unfold gpu_nlist_merge_particles_kernel. rewrite Eseg.
  pose proof (merge_leaf_box_bounds d_pos lp start_idx end_idx H0 Hs) as Hb.
  cbv zeta in Hb.
  destruct (merge_leaf_box d_pos lp start_idx end_idx) as [lower upper].
  exists lower, upper. split; [reflexivity|exact Hb].
Qed.

(** ** The second thread at a node *)

Lemma merge_upper_bounds cur sib :
  let r := merge_upper cur sib in
  (s4_x cur <= s4_x r /\ s4_x sib <= s4_x r
   /\ s4_y cur <= s4_y r /\ s4_y sib <= s4_y r
   /\ s4_z cur <= s4_z r /\ s4_z sib <= s4_z r)%Q
  /\ s4_w r = s4_w cur.
Proof.
  cbv zeta. unfold merge_upper.
  destruct cur as [cx cy cz cw], sib as [sx sy sz sw].
  cbn [s4_x s4_y s4_z s4_w set_x set_y set_z].
  destruct (Qltb cx sx) eqn:Ex;
    [apply Qltb_true, Qlt_le_weak in Ex|apply Qltb_false in Ex];
    cbn [s4_x s4_y s4_z s4_w set_x set_y set_z];
    (destruct (Qltb cy sy) eqn:Ey;
     [apply Qltb_true, Qlt_le_weak in Ey|apply Qltb_false in Ey]);
    cbn [s4_x s4_y s4_z s4_w set_x set_y set_z];
    (destruct (Qltb cz sz) eqn:Ez;
     [apply Qltb_true, Qlt_le_weak in Ez|apply Qltb_false in Ez]);
    cbn [s4_x s4_y s4_z s4_w set_x set_y set_z];
    repeat split; try assumption; try apply Qle_refl.
Qed.

Lemma merge_lower_bounds cur sib :
  let r := merge_lower cur sib in
  (s4_x r <= s4_x cur /\ s4_x r <= s4_x sib
   /\ s4_y r <= s4_y cur /\ s4_y r <= s4_y sib
   /\ s4_z r <= s4_z cur /\ s4_z r <= s4_z sib)%Q
  /\ s4_w r = s4_w cur.
Proof.
  cbv zeta. unfold merge_lower.
  destruct cur as [cx cy cz cw], sib as [sx sy sz sw].
  cbn [s4_x s4_y s4_z s4_w set_x set_y set_z].
  destruct (Qltb sx cx) eqn:Ex;
    [apply Qltb_true, Qlt_le_weak in Ex|apply Qltb_false in Ex];
    cbn [s4_x s4_y s4_z s4_w set_x set_y set_z];
    (destruct (Qltb sy cy) eqn:Ey;
     [apply Qltb_true, Qlt_le_weak in Ey|apply Qltb_false in Ey]);
    cbn [s4_x s4_y s4_z s4_w set_x set_y set_z];
    (destruct (Qltb sz cz) eqn:Ez;
     [apply Qltb_true, Qlt_le_weak in Ez|apply Qltb_false in Ez]);
    cbn [s4_x s4_y s4_z s4_w set_x set_y set_z];
    repeat split; try assumption; try apply Qle_refl.
Qed.

(** The thread that finds the lock of its parent [p] at 1 raises it to 2
    and stores for [p] a box that contains both the box it carries and the
    box stored for its sibling; it touches no other lock and no other box,
    and it goes on to the parent of [p] with the new box exactly when that
    parent differs from [p << 1]. *)
Theorem bubble_second_arrival_merges :
  forall (t : bubble_tree) (sh : bubble_shared) (l : bubble_local),
    d_node_locks sh (cur_parent l) = 1 ->
    let p := cur_parent l in
    let sib := bubble_sibling t l in
    let r := bubble_turn t sh l in
    let up := d_tree_aabbs (fst r) (2 * (bt_nleafs t + p)) in
    let lo := d_tree_aabbs (fst r) (2 * (bt_nleafs t + p) + 1) in
    box_within (cur_lower l) (cur_upper l) lo up
    /\ box_within (d_tree_aabbs sh (2 * sib + 1)) (d_tree_aabbs sh (2 * sib)) lo up
    /\ d_node_locks (fst r) p = 2
    /\ (forall k, k <> p -> d_node_locks (fst r) k = d_node_locks sh k)
    /\ (forall k, k <> 2 * (bt_nleafs t + p) -> k <> 2 * (bt_nleafs t + p) + 1 ->
                  d_tree_aabbs (fst r) k = d_tree_aabbs sh k)
    /\ snd r
       = (if wrap32 (Z.shiftl p 1) =? d_node_parents t (Z.shiftr (wrap32 (Z.shiftl p 1)) 1)
          then None
          else Some (mk_bubble_local (wrap32 (Z.shiftl p 1))
                       (d_node_parents t (Z.shiftr (wrap32 (Z.shiftl p 1)) 1))
                       up lo)).
Proof.
  intros t sh l Hlock p sib r up lo.
  unfold up, lo, r, sib, p, bubble_turn, bubble_sibling. clear up lo r sib p.
  rewrite Hlock. change (1 =? 1) with true. cbv iota.
  destruct (d_node_children t (cur_parent l)) as [left_child right_child].
  set (c := wrap32 (Z.shiftr (if left_child =? cur_child l then right_child
                              else left_child) 1
                    + (if ((left_child =? cur_child l)
                           && negb (Z.testbit right_child 0))
                          || ((right_child =? cur_child l)
                              && negb (Z.testbit left_child 0))
                       then 1 else 0) * bt_nleafs t)).
  set (E := 2 * (bt_nleafs t + cur_parent l)).
  assert (Hodd : 2 * c + 1 <> E) by (unfold E; lia).
  cbn [fst snd d_node_locks d_tree_aabbs].
  rewrite (upd_other _ E (2 * c + 1)) by exact Hodd.
  rewrite upd_same. rewrite (upd_other _ (E + 1) E) by lia. rewrite upd_same.
  destruct (merge_upper_bounds (cur_upper l) (d_tree_aabbs sh (2 * c)))
    as ((U1 & U2 & U3 & U4 & U5 & U6) & _).
  destruct (merge_lower_bounds (cur_lower l) (d_tree_aabbs sh (2 * c + 1)))
    as ((L1 & L2 & L3 & L4 & L5 & L6) & _).
  cbv zeta in *.
  split; [unfold box_within; repeat split; assumption|].
  split; [unfold box_within; repeat split; assumption|].
  split; [exact (upd_same (d_node_locks sh) (cur_parent l) 2)|].
  split; [intros k Hk; now apply upd_other|].
  split; [intros k Hk1 Hk2; now rewrite !upd_other by assumption|].
  destruct (wrap32 (Z.shiftl (cur_parent l) 1) =? _); reflexivity.
Qed.

(** ** The neighbour list is the head of the list of all neighbours *)

Lemma contiguous_from_app head o ops j :
  contiguous_from head o ops ->
  contiguous_from head o
    (ops ++ [St_nlist (wrap32 (head + (o + Z.of_nat (length ops)))) j]).
Proof.
  revert o. induction ops as [|op q IH]; intros o H; cbn [app length contiguous_from].
  - replace (o + Z.of_nat 0) with o by (simpl; lia). split; [now exists j|exact I].
  - destruct H as [Hop Hq]. split; [exact Hop|].
    replace (o + Z.of_nat (S (length q))) with (o + 1 + Z.of_nat (length q)) by lia.
    now apply IH.
Qed.

Lemma wrap32_add_wrap a b : wrap32 (a + wrap32 b) = wrap32 (a + b).
Proof. unfold wrap32. now rewrite Zplus_mod_idemp_r. Qed.

Lemma visit_candidate_counts a me t pos r_cutsq node p st :
  counts_its_stores (nlist_head_i me) st ->
  counts_its_stores (nlist_head_i me)
    (visit_candidate (uncapped a) me t pos r_cutsq node p st).
Proof.
  intros [Hn Hc]. rewrite visit_candidate_cases.
  destruct (excluded _ _ _ _); [now split|].
  unfold record_neighbor. destruct (Qleb _ _); [|now split].
  change (s_Nmax (uncapped a) (type_i me)) with (2 ^ 32).
  replace (n_neigh_i st <? 2 ^ 32) with true
    by (symmetry; apply Z.ltb_lt; rewrite Hn; apply wrap32_range).
  unfold counts_its_stores. cbn [n_neigh_i ts_ops]. split.
  - rewrite length_app. cbn [length]. rewrite Hn.
    unfold wrap32. rewrite Zplus_mod_idemp_l. f_equal. lia.
  - rewrite Hn, wrap32_add_wrap.
    replace (nlist_head_i me + Z.of_nat (length (ts_ops st)))
      with (nlist_head_i me + (0 + Z.of_nat (length (ts_ops st)))) by lia.
    now apply contiguous_from_app.
Qed.

(** Of consecutive stores, the ones below the capacity are the first ones. *)
Lemma filter_below_capacity_firstn head cap :
  forall (ops : list traverse_op) (o : Z),
    0 <= o -> o + Z.of_nat (length ops) <= 2 ^ 32 ->
    contiguous_from head o ops ->
    filter (below_capacity head cap) ops = firstn (Z.to_nat (cap - o)) ops.
Proof.
  induction ops as [|op q IH]; intros o Ho Hlen Hc.
  - now rewrite firstn_nil.
  - destruct Hc as [[j ->] Hq]. cbn [length] in Hlen. cbn [filter below_capacity].
    rewrite wrap32_add_sub by (unfold is_u32; lia).
    rewrite (IH (o + 1)) by (try assumption; lia).
    destruct (Z.ltb_spec o cap) as [Hlt|Hge].
    + replace (Z.to_nat (cap - o)) with (S (Z.to_nat (cap - (o + 1)))) by lia.
      reflexivity.
    + replace (Z.to_nat (cap - o)) with 0%nat by lia.
      replace (Z.to_nat (cap - (o + 1))) with 0%nat by lia. reflexivity.
Qed.

(** With [cap = Nmax[type_i]] and fewer than [2^32] neighbours in all: the
    neighbours found are stored at consecutive slots from the head of the
    particle's list, in the order they are found, and the list holds the
    first [cap] of them; when the count stays below [cap] the list holds
    them all and the thread raises no overflow. *)
Theorem traverse_list_is_prefix :
  forall (a : traverse_args) (idx : Z),
    0 <= idx < ta_N a ->
    (forall k, 0 <= k < ta_ntypes a -> skips_ok a (d_aabb_trees a k)) ->
    let me := load_particle a idx in
    let cap := s_Nmax a (type_i me) in
    exists st all,
      pair_type_loop (Z.to_nat (ta_ntypes a)) a me 0 (mk_traverse_state 0 [])
      = Some st
      /\ pair_type_loop (Z.to_nat (ta_ntypes a)) (uncapped a) me 0
           (mk_traverse_state 0 []) = Some all
      /\ contiguous_from (nlist_head_i me) 0 (ts_ops all)
      /\ (Z.of_nat (length (ts_ops all)) < 2 ^ 32 ->
          n_neigh_i st = Z.of_nat (length (ts_ops all))
          /\ ts_ops st = firstn (Z.to_nat cap) (ts_ops all)
          /\ (n_neigh_i st < cap ->
              gpu_nlist_traverse_tree_kernel a idx
              = Some (ts_ops all
                      ++ [St_n_neigh (my_pidx me) (n_neigh_i st);
                          St_last_updated_pos (my_pidx me) (postype_i me)]))).
Proof.
  intros a idx Hidx Hok me cap.
  destruct (pair_type_loop_returns a me (Z.to_nat (ta_ntypes a)) 0
              (mk_traverse_state 0 []) ltac:(lia)) as [st Est].
  { intros k Hk. apply Hok. lia. }
  assert (H0 : capped_run (nlist_head_i me) cap (mk_traverse_state 0 [])
                 (mk_traverse_state 0 [])).
  { unfold capped_run, is_u32. simpl. repeat split; try lia. constructor. }
  pose proof (pair_type_loop_capped a me (Z.to_nat (ta_ntypes a)) 0 _ _ H0) as Hsim.
  fold me in Hsim. rewrite Est in Hsim.
  destruct (pair_type_loop _ (uncapped a) _ _ _) as [all|] eqn:Eall;
    [|contradiction].
  destruct Hsim as (Hn & Hu & Hops & Hall).
  assert (Hcount : counts_its_stores (nlist_head_i me) all).
  { eapply (pair_type_loop_keeps (uncapped a) me
              (counts_its_stores (nlist_head_i me))); [| |exact Eall].
    - intros. now apply visit_candidate_counts.
    - split; [reflexivity|exact I]. }
  destruct Hcount as [Hcn Hcc].
  exists st, all. repeat (split; [assumption || reflexivity|]).
  intros Hlen.
  assert (En : n_neigh_i st = Z.of_nat (length (ts_ops all)))
    by (rewrite Hn, Hcn; apply wrap32_small; lia).
  assert (Efirst : ts_ops st = firstn (Z.to_nat cap) (ts_ops all)).
  { rewrite Hops. fold cap.
    rewrite (filter_below_capacity_firstn (nlist_head_i me) cap (ts_ops all) 0)
      by (try assumption; lia).
    now rewrite Z.sub_0_r. }
  split; [exact En|]. split; [exact Efirst|].
  intros Hbelow. unfold gpu_nlist_traverse_tree_kernel. fold me.
  replace (ta_N a <=? idx) with false by (symmetry; apply Z.leb_gt; lia).
  rewrite Est. fold cap.
  replace (cap <=? n_neigh_i st) with false by (symmetry; apply Z.leb_gt; lia).
  rewrite app_nil_r. rewrite Efirst.
  rewrite firstn_all2 by lia. reflexivity.
Qed.

(** ** Every neighbour stored is a candidate within the cutoff *)

Section TraverseFound.

Variable a : traverse_args.
Variable me : traverse_particle.

Local Abbreviation all_found st := (Forall (found_within_cutoff a me) (ts_ops st)).

Lemma visit_candidate_found ty img node p st :
  0 <= ty < ta_ntypes a -> 0 <= img < nimages a ->
  0 <= node < num_nodes (d_aabb_trees a ty) ->
  0 <= p < node_particles a (d_aabb_trees a ty) node ->
  all_found st ->
  all_found (visit_candidate a me (d_aabb_trees a ty) (image_position a me img)
               (r_cutsq_of a me ty) node p st).
Proof.
  intros Hty Himg Hnode Hp H. rewrite visit_candidate_cases.
  destruct (excluded _ _ _ _) eqn:Eex; [exact H|].
  unfold record_neighbor. destruct (Qleb _ _) eqn:Ed; [|exact H].
  destruct (n_neigh_i st <? _); [|exact H]. cbn [ts_ops].
  apply Forall_app. split; [exact H|]. constructor; [|constructor].
  exists ty, img, node, p. repeat split; try lia; assumption.
Qed.

Lemma particle_loop_found ty img node :
  0 <= ty < ta_ntypes a -> 0 <= img < nimages a ->
  0 <= node < num_nodes (d_aabb_trees a ty) ->
  forall (count : nat) (cur_p : Z) st,
    0 <= cur_p ->
    cur_p + Z.of_nat count <= node_particles a (d_aabb_trees a ty) node ->
    all_found st ->
    all_found (particle_loop count a me (d_aabb_trees a ty) (image_position a me img)
                 (r_cutsq_of a me ty) node cur_p st).
Proof.
  intros Hty Himg Hnode. induction count as [|c IH]; intros cur_p st H0 Hle H;
    cbn [particle_loop]; [exact H|].
  apply IH; [lia|lia|]. apply visit_candidate_found; try assumption; lia.
Qed.

Lemma node_loop_found ty img r_cut :
  0 <= ty < ta_ntypes a -> 0 <= img < nimages a ->
  forall (fuel : nat) (cur : Z) st st',
    0 <= cur -> all_found st ->
    node_loop fuel a me (d_aabb_trees a ty) (image_position a me img) r_cut
      (r_cutsq_of a me ty) cur st = Some st' ->
    all_found st'.
Proof.
  intros Hty Himg. induction fuel as [|f IH]; intros cur st st' H0 H E;
    cbn [node_loop] in E; [discriminate|].
  destruct (Z.ltb_spec cur (num_nodes (d_aabb_trees a ty))) as [Hlt|Hge].
  - destruct (overlaps _ _ _ _).
    + eapply IH; [| |exact E]; [apply wrap32_range|].
      apply particle_loop_found; try assumption; try lia.
      unfold node_particles. rewrite Z2Nat.id; [lia|apply wrap32_range].
    + eapply IH; [| |exact E]; [apply wrap32_range|exact H].
  - now inversion E; subst.
Qed.

Lemma image_loop_found ty r_cut :
  0 <= ty < ta_ntypes a ->
  forall (count : nat) (img : Z) st st',
    (forall k, img <= k < img + Z.of_nat count -> 0 <= k < nimages a) ->
    all_found st ->
    image_loop count a me (d_aabb_trees a ty) r_cut (r_cutsq_of a me ty) img st
    = Some st' ->
    all_found st'.
Proof.
  intros Hty. induction count as [|c IH]; intros img st st' Hr H E;
    cbn [image_loop] in E.
  - now inversion E; subst.
  - fold (image_position a me img) in E.
    destruct (node_loop _ _ _ _ _ _ _ _ _) as [st1|] eqn:E1; [|discriminate].
    eapply IH; [| |exact E].
    + intros k Hk. apply Hr. lia.
    + eapply (node_loop_found ty img); [exact Hty|apply Hr; lia| | |exact E1];
        [lia|exact H].
Qed.

Lemma pair_type_loop_found :
  forall (count : nat) (ty : Z) st st',
    (forall k, ty <= k < ty + Z.of_nat count -> 0 <= k < ta_ntypes a) ->
    all_found st ->
    pair_type_loop count a me ty st = Some st' ->
    all_found st'.
Proof.
  induction count as [|c IH]; intros ty st st' Hr H E; cbn [pair_type_loop] in E.
  - now inversion E; subst.
  - fold (r_cutsq_of a me ty) in E.
    destruct (image_loop _ _ _ _ _ _ _ _) as [st1|] eqn:E1; [|discriminate].
    eapply IH; [| |exact E].
    + intros k Hk. apply Hr. lia.
    + eapply (image_loop_found ty); [apply Hr; lia| | |exact E1]; [|exact H].
      intros k Hk. lia.
Qed.

End TraverseFound.


(** ** Codes, bins and launches *)

Lemma morton_code_sum i j k :
  0 <= i < 1024 -> 0 <= j < 1024 -> 0 <= k < 1024 ->
  morton_code i j k
  = 4 * insert_zeros 10 i + 2 * insert_zeros 10 j + insert_zeros 10 k.
Proof.
  intros Hi Hj Hk. unfold morton_code. cbv zeta.
  rewrite !expandBits_insert_zeros by assumption.
  pose proof (interleave_range 10 i j k) as Hrange.
  pose proof (insert_zeros_range 10 i) as Ri.
  pose proof (insert_zeros_range 10 j) as Rj.
  pose proof (insert_zeros_range 10 k) as Rk.
  change (8 ^ Z.of_nat 10) with (2 ^ 30) in *.
  rewrite (wrap32_small (insert_zeros 10 i * 4)) by lia.
  rewrite (wrap32_small (insert_zeros 10 j * 2)) by lia.
  rewrite (wrap32_small (insert_zeros 10 i * 4 + insert_zeros 10 j * 2)) by lia.
  rewrite wrap32_small by lia. lia.
Qed.

Lemma bin_bits_above v n : 0 <= v < 1024 -> 10 <= n -> Z.testbit v n = false.
Proof.
  intros Hv Hn. destruct (Z.eq_dec v 0) as [->|Hv0]; [apply Z.bits_0|].
  apply Z.bits_above_log2; [lia|].
  assert (Z.log2 v < 10) by (apply Z.log2_lt_pow2; lia). lia.
Qed.

(** Two cells of the grid of [1024^3] bins with the same Morton code are
    the same cell. *)
Theorem morton_code_injective :
  forall i j k i' j' k' : Z,
    0 <= i < 1024 -> 0 <= j < 1024 -> 0 <= k < 1024 ->
    0 <= i' < 1024 -> 0 <= j' < 1024 -> 0 <= k' < 1024 ->
    morton_code i j k = morton_code i' j' k' ->
    i = i' /\ j = j' /\ k = k'.
Proof.
  intros i j k i' j' k' Hi Hj Hk Hi' Hj' Hk' E.
  rewrite !morton_code_sum in E by assumption.
  assert (Hbits : forall n, 0 <= n < 10 ->
             Z.testbit i n = Z.testbit i' n /\ Z.testbit j n = Z.testbit j' n
             /\ Z.testbit k n = Z.testbit k' n).
  { intros n Hn.
    destruct (interleave_testbit 10 i j k n ltac:(simpl; lia)) as (A1 & A2 & A3).
    destruct (interleave_testbit 10 i' j' k' n ltac:(simpl; lia)) as (B1 & B2 & B3).
    cbv zeta in *. rewrite E in A1, A2, A3.
    repeat split; congruence. }
  repeat split; apply Z.bits_inj'; intros n Hn;
    (destruct (Z_lt_le_dec n 10) as [Hlt|Hge];
     [apply Hbits; lia|rewrite !bin_bits_above by lia; reflexivity]).
Qed.

Lemma morton_code_injective_witness : 5 = 5 /\ 3 = 3 /\ 6 = 6.
Proof.
  apply (morton_code_injective 5 3 6 5 3 6); closed_arith.
Defined.

(** A particle whose three fractional coordinates lie in [[0, 1)] is
    stored once: its code, below [2^30], and its index go to the same slot
    of the two arrays, the head of its type plus its rank in the type. *)
Theorem morton_kernel_stores_code :
  forall (d_pos : mem Scalar4) (d_map_p_global_tree : mem Z) (N : Z)
         (d_type_head : mem Z) (periodic : bool * bool * bool)
         (makeFraction : Scalar3 -> Scalar3) (idx : Z),
    0 <= idx < N ->
    let f := makeFraction (make_scalar3 (s4_x (d_pos idx)) (s4_y (d_pos idx))
                             (s4_z (d_pos idx))) in
    (0 <= s3_x f /\ s3_x f < 1)%Q -> (0 <= s3_y f /\ s3_y f < 1)%Q ->
    (0 <= s3_z f /\ s3_z f < 1)%Q ->
    exists code,
      gpu_nlist_morton_codes_kernel d_pos d_map_p_global_tree N d_type_head periodic
        makeFraction idx
      = [W_morton_codes
           (wrap32 (d_type_head (wrap32 (s4_w (d_pos idx))) + d_map_p_global_tree idx))
           code;
         W_leaf_particles
           (wrap32 (d_type_head (wrap32 (s4_w (d_pos idx))) + d_map_p_global_tree idx))
           idx]
      /\ 0 <= code < 2 ^ 30.
Proof.
  intros d_pos map_p N th periodic mf idx Hidx f [Hx0 Hx1] [Hy0 Hy1] [Hz0 Hz1].
  assert (Hin : forall q, (0 <= q)%Q -> (q < 1)%Q -> out_of_cell q = false).
  { intros q H0 H1. apply Bool.not_true_iff_false. intros Hout.
    apply out_of_cell_spec in Hout. destruct Hout as [Hneg|Hbig].
    - now apply (Qlt_not_le _ _ Hneg).
    - apply (Qlt_not_le _ _ H1). eapply Qle_trans; [|exact Hbig]. discriminate. }
  unfold gpu_nlist_morton_codes_kernel.
  replace (N <=? idx) with false by (symmetry; apply Z.leb_gt; lia).
  destruct periodic as [[px py] pz]. fold f.
  rewrite !Hin by assumption. cbn [orb].
  eexists. split; [reflexivity|].
  pose proof (morton_bin_in_bins (s3_x f) px Hx0 Hx1) as Bx.
  pose proof (morton_bin_in_bins (s3_y f) py Hy0 Hy1) as By.
  pose proof (morton_bin_in_bins (s3_z f) pz Hz0 Hz1) as Bz.
  rewrite morton_code_sum by lia.
  pose proof (interleave_range 10 (morton_bin (s3_x f) px) (morton_bin (s3_y f) py)
                (morton_bin (s3_z f) pz)) as Hr.
  change (8 ^ Z.of_nat 10) with (2 ^ 30) in Hr. exact Hr.
Qed.

(** The grid of a launch holds a thread for every index below the amount
    of work. *)
Lemma grid_threads_cover work block_size idx :
  0 < block_size -> 0 <= idx < work -> In idx (grid_threads work block_size).
Proof.
  intros Hb Hidx. unfold grid_threads. apply in_map_iff.
  exists (Z.to_nat idx). split; [lia|]. apply in_seq.
  assert (work < (work / block_size + 1) * block_size).
  { pose proof (Z.mod_pos_bound work block_size Hb).
    pose proof (Z.div_mod work block_size ltac:(lia)). nia. }
  lia.
Qed.

(** The launch of the hierarchy generator runs the kernel for every
    internal node, and the threads past the internal nodes store nothing. *)
Theorem gen_hierarchy_launch_covers :
  forall (d_morton_codes d_num_per_type : mem Z) (L ntypes nleafs block_size : Z),
    0 < block_size ->
    let launch :=
      gpu_nlist_gen_hierarchy d_morton_codes d_num_per_type L ntypes nleafs block_size in
    (forall idx, 0 <= idx < wrap32 (nleafs - ntypes) ->
       In (idx, gen_hierarchy_kernel d_morton_codes d_num_per_type L ntypes nleafs idx)
          launch)
    /\ (forall idx stores, In (idx, stores) launch ->
          wrap32 (nleafs - ntypes) <= idx -> stores = Some []).
Proof.
  intros codes npt L ntypes nleafs bs Hb launch. split.
  - intros idx Hidx. unfold launch, gpu_nlist_gen_hierarchy.
    apply in_map_iff. exists idx. split; [reflexivity|].
    now apply grid_threads_cover.
  - intros idx stores Hin Hge. unfold launch, gpu_nlist_gen_hierarchy in Hin.
    apply in_map_iff in Hin. destruct Hin as (i & E & _).
    injection E as <- <-. unfold gen_hierarchy_kernel.
    replace (wrap32 (nleafs - ntypes) <=? i) with true
      by (symmetry; apply Z.leb_le; lia).
    reflexivity.
Qed.

(** ** The sort of the types, one after the other *)

Section MortonSort.

Variable sort_by_key : list (Z * Z) -> list (Z * Z).
Hypothesis sort_keeps_length : forall l, length (sort_by_key l) = length l.

Variable h_num_per_type : mem Z.

Lemma morton_sort_types_segments :
  forall (count c : nat) (pairs : list (Z * Z)),
    (particles_from h_num_per_type c count <= length pairs)%nat ->
    let sorted :=
      morton_sort_types sort_by_key h_num_per_type count (Z.of_nat c) pairs in
    (forall t, (t < count)%nat ->
       segment sorted (particles_from h_num_per_type c t)
         (Z.to_nat (h_num_per_type (Z.of_nat (c + t))))
       = sort_by_key
           (segment pairs (particles_from h_num_per_type c t)
              (Z.to_nat (h_num_per_type (Z.of_nat (c + t))))))
    /\ skipn (particles_from h_num_per_type c count) sorted
       = skipn (particles_from h_num_per_type c count) pairs
    /\ length sorted = length pairs.
Proof.
  induction count as [|count IH]; intros c pairs Hlen; cbv zeta.
  - cbn [morton_sort_types particles_from]. split; [intros t Ht; lia|].
    split; reflexivity.
  - cbn [morton_sort_types particles_from] in *.
    set (n := Z.to_nat (h_num_per_type (Z.of_nat c))) in *.
    replace (Z.of_nat c + 1) with (Z.of_nat (S c)) by lia.
    assert (Hrest : (particles_from h_num_per_type (S c) count
                     <= length (skipn n pairs))%nat)
      by (rewrite length_skipn; lia).
    destruct (IH (S c) (skipn n pairs) Hrest) as (Hseg & Hskip & Hl).
    cbv zeta in Hseg, Hskip, Hl.
    set (rest := morton_sort_types sort_by_key h_num_per_type count
                   (Z.of_nat (S c)) (skipn n pairs)) in *.
    assert (HA : length (sort_by_key (firstn n pairs)) = n)
      by (rewrite sort_keeps_length, length_firstn; lia).
    split; [|split].
    + intros t Ht. unfold segment. destruct t as [|t].
      * cbn [particles_from skipn]. rewrite Nat.add_0_r. fold n.
        rewrite firstn_app, HA, Nat.sub_diag, firstn_O, app_nil_r.
        rewrite <- HA at 1. now rewrite firstn_all.
      * cbn [particles_from]. fold n.
        rewrite skipn_app, HA.
        rewrite (skipn_all2 (sort_by_key (firstn n pairs))) by lia.
        cbn [app].
        replace (n + particles_from h_num_per_type (S c) t - n)%nat
          with (particles_from h_num_per_type (S c) t) by lia.
        replace (c + S t)%nat with (S c + t)%nat by lia.
        specialize (Hseg t ltac:(lia)). unfold segment in Hseg. rewrite Hseg.
        rewrite skipn_skipn.
        replace (particles_from h_num_per_type (S c) t + n)%nat
          with (n + particles_from h_num_per_type (S c) t)%nat by lia.
        reflexivity.
    + rewrite skipn_app, HA.
      rewrite (skipn_all2 (sort_by_key (firstn n pairs))) by lia. cbn [app].
      replace (n + particles_from h_num_per_type (S c) count - n)%nat
        with (particles_from h_num_per_type (S c) count) by lia.
      rewrite Hskip, skipn_skipn.
      now replace (particles_from h_num_per_type (S c) count + n)%nat
        with (n + particles_from h_num_per_type (S c) count)%nat by lia.
    + rewrite length_app, HA, Hl, length_skipn. lia.
Qed.

End MortonSort.

Lemma insert_by_key_length x l : length (insert_by_key x l) = S (length l).
Proof.
  induction l as [|y q IH]; cbn [insert_by_key length]; [reflexivity|].
  destruct (fst x <=? fst y); cbn [length]; [reflexivity|now rewrite IH].
Qed.

Lemma insertion_sort_by_key_length l : length (insertion_sort_by_key l) = length l.
Proof.
  induction l as [|x q IH]; [reflexivity|].
  unfold insertion_sort_by_key in *. cbn [fold_right length].
  now rewrite insert_by_key_length, IH.
Qed.

(** Whatever sort of pairs is plugged in, as long as it returns as many
    pairs as it is given: the sorter replaces the segment of each type by
    the sort of that segment, so that no pair leaves the segment of its
    type, and the pairs past the last type stay as they are. *)
Theorem morton_sort_sorts_each_type :
  forall (sort_by_key : list (Z * Z) -> list (Z * Z)) (h_num_per_type : mem Z)
         (ntypes : nat) (pairs : list (Z * Z)),
    (forall l, length (sort_by_key l) = length l) ->
    (particles_from h_num_per_type 0 ntypes <= length pairs)%nat ->
    let sorted :=
      gpu_nlist_morton_sort sort_by_key h_num_per_type (Z.of_nat ntypes) pairs in
    (forall t, (t < ntypes)%nat ->
       segment sorted (particles_from h_num_per_type 0 t)
         (Z.to_nat (h_num_per_type (Z.of_nat t)))
       = sort_by_key
           (segment pairs (particles_from h_num_per_type 0 t)
              (Z.to_nat (h_num_per_type (Z.of_nat t)))))
    /\ skipn (particles_from h_num_per_type 0 ntypes) sorted
       = skipn (particles_from h_num_per_type 0 ntypes) pairs
    /\ length sorted = length pairs.
Proof.
  intros sort h ntypes pairs Hsort Hlen. cbv zeta. unfold gpu_nlist_morton_sort.
  rewrite Nat2Z.id.
  exact (morton_sort_types_segments sort Hsort h ntypes 0%nat pairs Hlen).
Qed.

Lemma morton_sort_sorts_each_type_witness :
  segment (gpu_nlist_morton_sort insertion_sort_by_key (of_list 0 [2; 3]) 2
             [(7, 0); (4, 1); (9, 2); (1, 3); (5, 4)]) 2 3
  = insertion_sort_by_key [(9, 2); (1, 3); (5, 4)].
Proof.
  refine (proj1 (morton_sort_sorts_each_type insertion_sort_by_key (of_list 0 [2; 3])
                   2 [(7, 0); (4, 1); (9, 2); (1, 3); (5, 4)]
                   insertion_sort_by_key_length _) 1%nat _).
  - vm_compute. lia.
  - lia.
Defined.

(** ** The theorems above at concrete inputs *)

Lemma type_walk_locates_internal_node_witness :
  exists t : nat,
    (t < 2)%nat
    /\ type_walk 2 (of_list 0 [4; 12]) 4 0 0 0
       = (Z.of_nat t, leaves_before 4 (of_list 0 [4; 12]) t,
          leaves_before 4 (of_list 0 [4; 12]) (S t) - 1, 0 + Z.of_nat t)
    /\ leaves_before 4 (of_list 0 [4; 12]) t - Z.of_nat t <= 0
       < leaves_before 4 (of_list 0 [4; 12]) (S t) - Z.of_nat (S t).
Proof.
  apply (type_walk_locates_internal_node (of_list 0 [4; 12]) 4 2 0).
  - lia.
  - intros s Hs. destruct s as [|[|s]]; [closed_arith|closed_arith|lia].
  - closed_arith.
  - closed_arith.
Defined.

Lemma merge_type_walk_locates_leaf_witness :
  exists t : nat,
    (t < 2)%nat
    /\ merge_type_walk 3 (of_list 0 [0; 12]) (of_list 0 [0; 0]) 4 (Z.of_nat 2) 0
         0 0 (-1) 12
       = (leaves_before 4 (of_list 0 [0; 12]) (S t), Z.of_nat t,
          if Z.of_nat t + 1 <? Z.of_nat 2
          then of_list 0 [0; 0] (Z.of_nat t + 1) else 12)
    /\ leaves_before 4 (of_list 0 [0; 12]) t <= 0
       < leaves_before 4 (of_list 0 [0; 12]) (S t).
Proof.
  apply (merge_type_walk_locates_leaf (of_list 0 [0; 12]) (of_list 0 [0; 0]) 4 2 12 0);
    closed_arith.
Defined.


Lemma merge_kernel_leaf_box_witness :
  exists lower upper : Scalar4, s4_w lower = 4 /\ s4_w upper = 0.
Proof.
  destruct (merge_kernel_leaf_box (of_list 0 [3; 5; 6; 9])
              (of_list (point4 0 0 0 0)
                 [point4 1 5 2 1; point4 4 0 3 1; point4 2 2 9 1; point4 0 1 1 1])
              (of_list 0 [0; 12]) 2 (of_list 0 [0; 1; 2; 3]) (of_list 0 [0; 0])
              (of_list 0 [0; 0]) 4 12 3 0 1 0 4)
    as (lower & upper & _ & _ & Hl & Hu).
  - vm_compute. reflexivity.
  - closed_arith.
  - exists lower, upper. split; [exact Hl|exact Hu].
Defined.

Lemma bubble_second_arrival_merges_witness :
  d_node_locks
    (fst (bubble_turn chain_tree
            (mk_bubble_shared (fun _ => 1) (fun _ => point4 0 0 0 0))
            (chain_local (fun _ => point4 0 0 0 0) 0 1))) 1 = 2.
Proof.
  exact (proj1 (proj2 (proj2
    (bubble_second_arrival_merges chain_tree
       (mk_bubble_shared (fun _ => 1) (fun _ => point4 0 0 0 0))
       (chain_local (fun _ => point4 0 0 0 0) 0 1) eq_refl)))).
Defined.

Lemma demo_args_skips_ok :
  forall k, 0 <= k < ta_ntypes demo_args ->
            skips_ok demo_args (d_aabb_trees demo_args k).
Proof.
  intros k Hk. change (ta_ntypes demo_args) with 1 in Hk.
  assert (k = 0) by lia. subst k. split; [closed_arith|].
  intros k Hk'. change (num_nodes (d_aabb_trees demo_args 0)) with 1 in Hk'.
  assert (k = 0) by lia. subst k. closed_arith.
Defined.

Lemma traverse_list_is_prefix_witness :
  exists all,
    pair_type_loop (Z.to_nat (ta_ntypes demo_args)) (uncapped demo_args)
      (load_particle demo_args 0) 0 (mk_traverse_state 0 []) = Some all
    /\ contiguous_from (nlist_head_i (load_particle demo_args 0)) 0 (ts_ops all).
Proof.
  assert (H1 : 0 <= 0 < ta_N demo_args) by closed_arith.
  destruct (traverse_list_is_prefix demo_args 0 H1 demo_args_skips_ok)
    as (st & all & _ & E & Hc & _).
  exists all. split; [exact E|exact Hc].
Defined.


Lemma morton_kernel_stores_code_witness :
  exists code,
    gpu_nlist_morton_codes_kernel
      (of_list (point4 0 0 0 0) [make_scalar4 (1 # 2) (1 # 4) (3 # 4) 0])
      (of_list 0 [0]) 1 (of_list 0 [0]) (true, true, true) (fun pos => pos) 0
    = [W_morton_codes 0 code; W_leaf_particles 0 0]
    /\ 0 <= code < 2 ^ 30.
Proof.
  apply (morton_kernel_stores_code
           (of_list (point4 0 0 0 0) [make_scalar4 (1 # 2) (1 # 4) (3 # 4) 0])
           (of_list 0 [0]) 1 (of_list 0 [0]) (true, true, true) (fun pos => pos) 0);
    closed_arith.
Defined.

Lemma gen_hierarchy_launch_covers_witness :
  In (2, gen_hierarchy_kernel (of_list 0 [0; 1; 2; 4]) (of_list 0 [16]) 4 1 4 2)
     (gpu_nlist_gen_hierarchy (of_list 0 [0; 1; 2; 4]) (of_list 0 [16]) 4 1 4 4).
Proof.
  apply (proj1 (gen_hierarchy_launch_covers (of_list 0 [0; 1; 2; 4])
                  (of_list 0 [16]) 4 1 4 4 ltac:(lia)) 2).
  closed_arith.
Defined.
